(** * ec2-sg-sync: a shallow embedding of [sync_security_group.py]

    The script reconciles the ingress rules of one EC2 security group with
    an allow-list (the caller's public address plus Cloudflare's published
    ranges), writes the allow-list to a YAML file and commits that file.

    Everything outside the script (the two HTTP endpoints, boto3, the
    file system, git) is an oracle of the [World]; every call the script
    makes on it is recorded as an [event].  A Python function becomes a
    computation [M A]: given the world and the events so far it yields an
    [outcome] (a return value, [sys.exit] or a propagating exception)
    together with the events it added. *)

From stdpp Require Import gmap strings list sorting.
From Stdlib Require Import ZArith Ascii.

#[local] Set Warnings "-clear-no-such-hyp".

Local Open Scope Z_scope.
Local Open Scope string_scope.
Local Open Scope list_scope.

(** ** Configuration (source lines 25-29) *)

Definition YAML_FILE : string := "security-group.yaml".
Definition CLOUDFLARE_IPV4_URL : string := "https://www.cloudflare.com/ips-v4".
Definition SSH_PORT : Z := 22.
Definition HTTP_PORT : Z := 80.

(** The address-echo endpoint that [get_current_ip] queries. *)
Definition CHECKIP_URL : string := "https://checkip.amazonaws.com".

(** ** Exceptions and outcomes *)

(** The exception classes the script tells apart, and the ones its own
    statements raise.  All of them derive from [Exception]; [SystemExit]
    does not and is the [SysExit] outcome below. *)
Inductive exn_class :=
| NoCredentialsError
| PartialCredentialsError
| ClientError
| CalledProcessError
| KeyError
| IndexError
| TypeError
| OtherException.

Record exn := Exn { exn_cls : exn_class; exn_str : string }.

Global Instance exn_class_eq_dec : EqDecision exn_class.
Proof. solve_decision. Defined.
Global Instance exn_eq_dec : EqDecision exn.
Proof. solve_decision. Defined.

(** What a call on the outside world gives back. *)
Inductive result (A : Type) :=
| Ok (a : A)
| Raise (e : exn).
Arguments Ok {A} a.
Arguments Raise {A} e.

(** How a Python function ends. *)
Inductive outcome (A : Type) :=
| Returned (a : A)
| SysExit (code : Z)
| Raised (e : exn).
Arguments Returned {A} a.
Arguments SysExit {A} code.
Arguments Raised {A} e.

(** The exit status of the process when [main] ends with the outcome:
    an exception that reaches the top level prints a traceback and the
    interpreter exits with status 1. *)
Definition exit_status {A} (o : outcome A) : Z :=
  match o with
  | Returned _ => 0
  | SysExit code => code
  | Raised _ => 1
  end.

(** ** Data: the parts of the boto3 responses the script reads *)

(** An entry of ['IpRanges'].  The script reads ['CidrIp'] once with
    [.get] and once with a subscript, so the key is optional here. *)
Record IpRange := mkIpRange { CidrIp : option string }.

(** An entry of ['IpPermissions']; every key is read with [.get]. *)
Record IpPermission := mkIpPermission {
  IpProtocol : option string;
  FromPort : option Z;
  ToPort : option Z;
  IpRanges : option (list IpRange)
}.

Record SecurityGroup := mkSecurityGroup {
  GroupId : string;
  IpPermissions : list IpPermission
}.

Global Instance IpRange_eq_dec : EqDecision IpRange.
Proof. solve_decision. Defined.
Global Instance IpPermission_eq_dec : EqDecision IpPermission.
Proof. solve_decision. Defined.

(** The keyword arguments of [describe_security_groups]. *)
Inductive describe_request :=
| Filters (fs : list (string * list string))
| GroupIds (ids : list string).

Global Instance describe_request_eq_dec : EqDecision describe_request.
Proof. solve_decision. Defined.

(** A value of a YAML document as [yaml.safe_load] returns it (mappings
    keep their key order, which [yaml.dump(..., sort_keys=False)] writes
    back).  A sequence or mapping written in place is a Python object
    with that one reference.  A sequence or mapping that the file
    anchors ([&a]) and uses again through aliases ([*a]) is loaded as one
    object with several references: each reference is a [YAlias], and
    the object is kept once, in the table of the document. *)
Local Unset Elimination Schemes.
Inductive yaml :=
| YNull
| YBool (b : bool)
| YInt (z : Z)
| YStr (s : string)
| YSeq (l : list yaml)
| YMap (m : list (string * yaml))
| YAlias (a : string).
Local Set Elimination Schemes.

(** An object with several references. *)
Inductive object :=
| OSeq (l : list yaml)
| OMap (m : list (string * yaml)).

(** A loaded document: the shared objects by anchor, and the top-level
    value.  [yaml.dump] writes a shared object once, with an anchor, and
    an alias at its other references. *)
Record document := mkDocument {
  anchors : gmap string object;
  root : yaml
}.

(** A document without shared objects. *)
Definition plain (y : yaml) : document := mkDocument ∅ y.

(** The object a value stands for.  The parser rejects an alias without
    an anchor, so a loaded document has none; here such an alias stands
    for [None]. *)
Definition deref (table : gmap string object) (v : yaml) : yaml :=
  match v with
  | YAlias a =>
      match table !! a with
      | Some (OSeq l) => YSeq l
      | Some (OMap m) => YMap m
      | None => YNull
      end
  | _ => v
  end.

(** ** Events *)

(** The lines the script prints, one constructor per [print] call. *)
Inductive message :=
| MsgBanner                       (* "====...====" *)
| MsgTitle                        (* "EC2 Security Group Sync Script" *)
| MsgHomeIp (home_ip : string)    (* "✓ Home IP: {home_ip}" *)
| MsgFetched (n : nat)            (* "✓ Fetched {len(cf_ips)} Cloudflare IP ranges" *)
| MsgRegion (region : string)     (* "✓ Detected AWS Region: {region}" *)
| MsgFoundGroup (sg_id : string)  (* "✓ Found Security Group: {sg_id}" *)
| MsgSynced                       (* "✓ Security group synced" *)
| MsgUpdatedYaml                  (* "✓ Updated security-group.yaml" *)
| MsgCompleted                    (* "✓ Sync completed successfully!" *)
| MsgTestUrl                      (* "  Test URL: http://2bcloud.io" *)
| MsgErrPublicIp (e : exn)        (* "Error getting public IP: {e}" *)
| MsgErrCloudflare (e : exn)      (* "Error getting Cloudflare IPs: {e}" *)
| MsgYamlNotFound                 (* "Error: {YAML_FILE} not found." *)
| MsgNoNamedGroup                 (* "Could not find security group named 'security-group'." *)
| MsgFoundSshGroup (sg_id : string) (* "Found security group {sg['GroupId']} allowing SSH from 0.0.0.0/0" *)
| MsgNoTargetGroup                (* "Error: Could not dynamically determine target Security Group." *)
| MsgNoCredentials                (* "\n❌ AWS Credentials not found." *)
| MsgRunAwsConfigure              (* "Please run 'aws configure' to set up ..." *)
| MsgErrFindingGroup (e : exn)    (* "Error finding security group: {e}" *)
| MsgAddingSsh                    (* "Adding SSH access for 0.0.0.0/0..." *)
| MsgRevoking (n : nat)           (* "Revoking {len(to_revoke)} stale HTTP rules..." *)
| MsgAuthorizing (n : nat)        (* "Authorizing {len(to_authorize)} new HTTP rules..." *)
| MsgErrUpdating (e : exn)        (* "Error updating security group: {e}" *)
| MsgNoChanges                    (* "No changes to commit." *)
| MsgCommitting                   (* "Committing and pushing changes..." *)
| MsgGitFailed (e : exn).         (* "Git operation failed: {e}" *)

(** One event per call that leaves the process, with its arguments. *)
Inductive event :=
| EvPrint (m : message)
| EvGet (url : string)                           (* requests.get(url) *)
| EvSession (region_name : option string)        (* boto3.Session(region_name=...) *)
| EvClient (service : string)                    (* session.client(service) *)
| EvDescribe (req : describe_request)            (* ec2.describe_security_groups *)
| EvAuthorize (sg_id : string) (perms : list IpPermission)
| EvRevoke (sg_id : string) (perms : list IpPermission)
| EvExists (path : string)                       (* os.path.exists *)
| EvLoad (path : string)                         (* open(path, 'r'); yaml.safe_load *)
| EvDump (path : string) (config : document)     (* open(path, 'w'); yaml.dump *)
| EvCheckOutput (args : list string)             (* subprocess.check_output *)
| EvCheckCall (args : list string).              (* subprocess.check_call *)

(** ** The world *)

(** Each oracle also sees the events so far, so a world may answer the
    same request differently at different points of a run. *)
Record World := mkWorld {
  (* requests.get(url) followed by raise_for_status(): the body text *)
  requests_get : string → list event → result string;
  (* boto3.Session(region_name=...): the session's region_name *)
  boto3_session : option string → list event → result (option string);
  session_client : string → list event → result unit;
  (* the 'SecurityGroups' list of the response *)
  describe_security_groups : describe_request → list event → result (list SecurityGroup);
  authorize_security_group_ingress :
    string → list IpPermission → list event → result unit;
  revoke_security_group_ingress :
    string → list IpPermission → list event → result unit;
  path_exists : string → list event → bool;
  yaml_safe_load : string → list event → result document;
  yaml_dump : string → document → list event → result unit;
  (* the decoded standard output *)
  check_output : list string → list event → result string;
  check_call : list string → list event → result unit
}.

(** ** The monad of the script *)

Definition M (A : Type) : Type := World → list event → outcome A * list event.

Definition ret {A} (a : A) : M A := λ _ _, (Returned a, []).

Definition bind {A B} (m : M A) (f : A → M B) : M B := λ w h,
  match m w h with
  | (Returned a, e1) =>
      match f a w (h ++ e1) with
      | (o, e2) => (o, e1 ++ e2)
      end
  | (SysExit code, e1) => (SysExit code, e1)
  | (Raised e, e1) => (Raised e, e1)
  end.

Declare Scope py_scope.
Delimit Scope py_scope with py.
Notation "x <- m ;; k" := (bind m (λ x, k))
  (at level 100, m at next level, right associativity) : py_scope.
Notation "m ;;; k" := (bind m (λ _, k))
  (at level 100, right associativity) : py_scope.
Local Open Scope py_scope.

(** [sys.exit(code)] *)
Definition sys_exit {A} (code : Z) : M A := λ _ _, (SysExit code, []).

(** [raise e], for the exceptions of the script's own statements. *)
Definition raise {A} (e : exn) : M A := λ _ _, (Raised e, []).

(** A call on the world: the event is recorded, then the oracle answers. *)
Definition call {A} (ev : event) (oracle : World → list event → result A) : M A :=
  λ w h,
    match oracle w h with
    | Ok a => (Returned a, [ev])
    | Raise e => (Raised e, [ev])
    end.

Definition print (m : message) : M unit := λ _ _, (Returned tt, [EvPrint m]).

(** [try: body  except ...: handler]: [handler e] is [None] when no
    [except] clause matches the class of [e]. *)
Definition try_except {A} (body : M A) (handler : exn → option (M A)) : M A :=
  λ w h,
    match body w h with
    | (Raised e, e1) =>
        match handler e with
        | Some k => match k w (h ++ e1) with (o, e2) => (o, e1 ++ e2) end
        | None => (Raised e, e1)
        end
    | r => r
    end.

(** A pure computation that may raise. *)
Definition lift {A} (r : result A) : M A :=
  match r with
  | Ok a => ret a
  | Raise e => raise e
  end.

(** ** Strings

    A character is a code point below 256.  [isspace] is [str.isspace]
    on that range, [strip] is [str.strip()] and [splitlines] is
    [str.splitlines()]. *)

Definition isspace (c : ascii) : bool :=
  let n := N_of_ascii c in
  ((9 <=? n) && (n <=? 13) || (28 <=? n) && (n <=? 31)
   || (n =? 32) || (n =? 133) || (n =? 160))%N.

Fixpoint lstrip (s : string) : string :=
  match s with
  | String c s' => if isspace c then lstrip s' else s
  | EmptyString => EmptyString
  end.

Fixpoint rstrip (s : string) : string :=
  match s with
  | String c s' =>
      match rstrip s' with
      | EmptyString => if isspace c then EmptyString else String c EmptyString
      | r => String c r
      end
  | EmptyString => EmptyString
  end.

Definition strip (s : string) : string := rstrip (lstrip s).

Definition is_linebreak (c : ascii) : bool :=
  let n := N_of_ascii c in
  ((10 <=? n) && (n <=? 13) || (28 <=? n) && (n <=? 30) || (n =? 133))%N.

Fixpoint splitlines_from (line : string) (s : string) : list string :=
  match s with
  | EmptyString => if decide (line = "") then [] else [line]
  | String c s' =>
      if is_linebreak c then
        match s' with
        | String c' s'' =>
            if (N_of_ascii c =? 13)%N && (N_of_ascii c' =? 10)%N
            then line :: splitlines_from "" s''
            else line :: splitlines_from "" s'
        | EmptyString => [line]
        end
      else splitlines_from (line +:+ String c EmptyString) s'
  end.

Definition splitlines (s : string) : list string := splitlines_from "" s.

Example strip_example :
  strip ("  203.0.113.5 " +:+ String (ascii_of_nat 10) EmptyString) = "203.0.113.5".
Proof. reflexivity. Qed.

Example splitlines_example :
  let lf := String (ascii_of_nat 10) EmptyString in
  let cr := String (ascii_of_nat 13) EmptyString in
  splitlines ("a" +:+ lf +:+ lf +:+ "b" +:+ cr +:+ lf +:+ "c" +:+ lf) = ["a"; ""; "b"; "c"] ∧
  splitlines "" = [] ∧ splitlines lf = [""] ∧ splitlines (lf +:+ "x") = [""; "x"].
Proof. by split_and!. Qed.

(** ** get_current_ip, get_cloudflare_ips (source lines 31-49) *)

Definition get_current_ip : M string :=
  try_except
    (text <- call (EvGet CHECKIP_URL) (λ w, requests_get w CHECKIP_URL) ;;
     ret (strip text +:+ "/32"))
    (λ e, Some (print (MsgErrPublicIp e) ;;; sys_exit 1)).

Definition get_cloudflare_ips : M (list string) :=
  try_except
    (text <- call (EvGet CLOUDFLARE_IPV4_URL) (λ w, requests_get w CLOUDFLARE_IPV4_URL) ;;
     ret (strip <$> filter (λ ip, strip ip ≠ "") (splitlines text)))
    (λ e, Some (print (MsgErrCloudflare e) ;;; sys_exit 1)).

(** ** load_yaml_config, save_yaml_config (source lines 51-62) *)

(** Python truth value of a loaded document. *)
Definition truthy (config : document) : bool :=
  match deref (anchors config) (root config) with
  | YNull => false
  | YBool b => b
  | YInt z => negb (z =? 0)%Z
  | YStr s => bool_decide (s ≠ "")
  | YSeq l => match l with [] => false | _ => true end
  | YMap m => match m with [] => false | _ => true end
  | YAlias _ => false
  end.

(** [yaml.safe_load(f) or {}]: a false document gives way to a new,
    empty mapping. *)
Definition load_yaml_config : M document :=
  found <- call (EvExists YAML_FILE) (λ w h, Ok (path_exists w YAML_FILE h)) ;;
  if negb found then
    print MsgYamlNotFound ;;; sys_exit 1
  else
    loaded <- call (EvLoad YAML_FILE) (λ w, yaml_safe_load w YAML_FILE) ;;
    ret (if truthy loaded then loaded else plain (YMap [])).

Definition save_yaml_config (config : document) : M unit :=
  call (EvDump YAML_FILE config) (λ w, yaml_dump w YAML_FILE config).

(** ** get_security_group_id (source lines 64-112) *)

Definition NAME_FILTERS : describe_request :=
  Filters [("group-name", ["security-group"])].

Definition SSH_FILTERS : describe_request :=
  Filters [("ip-permission.from-port", ["22"]);
           ("ip-permission.to-port", ["22"]);
           ("ip-permission.cidr", ["0.0.0.0/0"])].

Definition describe (req : describe_request) : M (list SecurityGroup) :=
  call (EvDescribe req) (λ w, describe_security_groups w req).

Definition get_security_group_id : M string :=
  try_except
    (groups <- describe NAME_FILTERS ;;
     match groups with
     | sg :: _ => ret (GroupId sg)
     | [] =>
         print MsgNoNamedGroup ;;;
         groups <- describe SSH_FILTERS ;;
         match groups with
         | sg :: _ => print (MsgFoundSshGroup (GroupId sg)) ;;; ret (GroupId sg)
         | [] => print MsgNoTargetGroup ;;; sys_exit 1
         end
     end)
    (λ e,
       match exn_cls e with
       | NoCredentialsError | PartialCredentialsError =>
           Some (print MsgNoCredentials ;;; print MsgRunAwsConfigure ;;; sys_exit 1)
       | _ => Some (print (MsgErrFindingGroup e) ;;; sys_exit 1)
       end).

(** ** update_security_group (source lines 114-185) *)

Definition ALL_ADDRESSES : string := "0.0.0.0/0".

(** [perm.get('FromPort') == port and perm.get('ToPort') == port] *)
Definition on_port (port : Z) (perm : IpPermission) : bool :=
  bool_decide (FromPort perm = Some port) && bool_decide (ToPort perm = Some port).

(** [perm.get('IpRanges', [])] *)
Definition ip_ranges (perm : IpPermission) : list IpRange :=
  default [] (IpRanges perm).

(** The inner loop of lines 125-128; it stops at the first match. *)
Fixpoint ssh_ranges_loop (ranges : list IpRange) (ssh_open : bool) : bool :=
  match ranges with
  | [] => ssh_open
  | ip_range :: rest =>
      if bool_decide (CidrIp ip_range = Some ALL_ADDRESSES) then true
      else ssh_ranges_loop rest ssh_open
  end.

(** The loop of lines 123-128. *)
Fixpoint ssh_loop (perms : list IpPermission) (ssh_open : bool) : bool :=
  match perms with
  | [] => ssh_open
  | perm :: rest =>
      ssh_loop rest
        (if on_port SSH_PORT perm then ssh_ranges_loop (ip_ranges perm) ssh_open
         else ssh_open)
  end.

(** The inner loop of lines 147-148; [ip_range['CidrIp']] raises
    [KeyError] when the key is missing. *)
Fixpoint http_ranges_loop (ranges : list IpRange) (cidrs : gset string)
  : result (gset string) :=
  match ranges with
  | [] => Ok cidrs
  | ip_range :: rest =>
      match CidrIp ip_range with
      | Some cidr => http_ranges_loop rest (cidrs ∪ {[cidr]})
      | None => Raise (Exn KeyError "'CidrIp'")
      end
  end.

(** The loop of lines 145-148. *)
Fixpoint http_loop (perms : list IpPermission) (cidrs : gset string)
  : result (gset string) :=
  match perms with
  | [] => Ok cidrs
  | perm :: rest =>
      if on_port HTTP_PORT perm then
        match http_ranges_loop (ip_ranges perm) cidrs with
        | Ok cidrs' => http_loop rest cidrs'
        | Raise e => Raise e
        end
      else http_loop rest cidrs
  end.

(** The permission of lines 134-139. *)
Definition ssh_permission : IpPermission :=
  {| IpProtocol := Some "tcp"; FromPort := Some SSH_PORT; ToPort := Some SSH_PORT;
     IpRanges := Some [mkIpRange (Some ALL_ADDRESSES)] |}.

(** The permission of lines 160-165 and 174-179; a set is iterated in
    an order of its own, here the order of [elements]. *)
Definition http_permission (cidrs : gset string) : IpPermission :=
  {| IpProtocol := Some "tcp"; FromPort := Some HTTP_PORT; ToPort := Some HTTP_PORT;
     IpRanges := Some ((λ cidr, mkIpRange (Some cidr)) <$> elements cidrs) |}.

Definition authorize (sg_id : string) (perms : list IpPermission) : M unit :=
  call (EvAuthorize sg_id perms) (λ w, authorize_security_group_ingress w sg_id perms).

Definition revoke (sg_id : string) (perms : list IpPermission) : M unit :=
  call (EvRevoke sg_id perms) (λ w, revoke_security_group_ingress w sg_id perms).

Definition update_security_group (sg_id : string) (allowed_cidrs : list string) : M bool :=
  try_except
    (groups <- describe (GroupIds [sg_id]) ;;
     current_permissions <-
       match groups with
       | sg :: _ => ret (IpPermissions sg)
       | [] => raise (Exn IndexError "list index out of range")
       end ;;
     (* 1. Ensure SSH is open to 0.0.0.0/0 *)
     let ssh_open := ssh_loop current_permissions false in
     (if negb ssh_open then
        print MsgAddingSsh ;;;
        authorize sg_id [ssh_permission]
      else ret tt) ;;;
     (* 2. Sync HTTP rules *)
     current_http_cidrs <- lift (http_loop current_permissions ∅) ;;
     let target_http_cidrs : gset string := list_to_set allowed_cidrs in
     let to_revoke := current_http_cidrs ∖ target_http_cidrs in
     let to_authorize := target_http_cidrs ∖ current_http_cidrs in
     (if bool_decide (to_revoke ≠ ∅) then
        print (MsgRevoking (size to_revoke)) ;;;
        revoke sg_id [http_permission to_revoke]
      else ret tt) ;;;
     (if bool_decide (to_authorize ≠ ∅) then
        print (MsgAuthorizing (size to_authorize)) ;;;
        authorize sg_id [http_permission to_authorize]
      else ret tt) ;;;
     ret true)
    (λ e, Some (print (MsgErrUpdating e) ;;; sys_exit 1)).

(** ** git_commit_and_push (source lines 187-203) *)

Definition GIT_STATUS : list string := ["git"; "status"; "--porcelain"].
Definition GIT_PULL : list string := ["git"; "pull"].
Definition GIT_ADD : list string := ["git"; "add"; YAML_FILE].
Definition GIT_COMMIT : list string :=
  ["git"; "commit"; "-m"; "Update security group rules [skip ci]"].
Definition GIT_PUSH : list string := ["git"; "push"].

Definition subprocess_check_call (args : list string) : M unit :=
  call (EvCheckCall args) (λ w, check_call w args).

Definition git_commit_and_push : M unit :=
  try_except
    (status <- call (EvCheckOutput GIT_STATUS) (λ w, check_output w GIT_STATUS) ;;
     if bool_decide (status = "") then
       print MsgNoChanges ;;; ret tt
     else
       print MsgCommitting ;;;
       subprocess_check_call GIT_PULL ;;;
       subprocess_check_call GIT_ADD ;;;
       subprocess_check_call GIT_COMMIT ;;;
       subprocess_check_call GIT_PUSH)
    (λ e,
       match exn_cls e with
       | CalledProcessError => Some (print (MsgGitFailed e))
       | _ => None
       end).

(** ** main (source lines 205-256) *)

(** [sorted] on strings: ascending by code points. *)
Definition sorted (l : list string) : list string := merge_sort String.le l.

(** Line 218: [sorted(list(set([home_ip] + cf_ips)))]. *)
Definition target_http_cidrs (home_ip : string) (cf_ips : list string) : list string :=
  sorted (elements (list_to_set (home_ip :: cf_ips) : gset string)).

Definition dict_get (key : string) (d : list (string * yaml)) : option yaml :=
  snd <$> List.find (λ kv, bool_decide (kv.1 = key)) d.

(** [d[key] = value]: an existing key keeps its place, a new one is
    added last. *)
Fixpoint dict_set (key : string) (value : yaml) (d : list (string * yaml))
  : list (string * yaml) :=
  match d with
  | [] => [(key, value)]
  | (k, v) :: rest =>
      if bool_decide (k = key) then (key, value) :: rest
      else (k, v) :: dict_set key value rest
  end.

(** *** Item access with a string key

    The exceptions and their texts are CPython's (3.11 and later). *)

Global Instance result_bind : MBind result := λ A B f r,
  match r with
  | Ok a => f a
  | Raise e => Raise e
  end.

(** [type(v).__name__] *)
Definition type_name (v : yaml) : string :=
  match v with
  | YNull | YAlias _ => "NoneType"
  | YBool _ => "bool"
  | YInt _ => "int"
  | YStr _ => "str"
  | YSeq _ => "list"
  | YMap _ => "dict"
  end.

(** [v[key]] *)
Definition getitem (table : gmap string object) (v : yaml) (key : string)
  : result yaml :=
  match deref table v with
  | YMap d =>
      match dict_get key d with
      | Some x => Ok x
      | None => Raise (Exn KeyError ("'" +:+ key +:+ "'"))
      end
  | YSeq _ => Raise (Exn TypeError "list indices must be integers or slices, not str")
  | YStr _ => Raise (Exn TypeError "string indices must be integers, not 'str'")
  | o => Raise (Exn TypeError ("'" +:+ type_name o +:+ "' object is not subscriptable"))
  end.

(** [v[key] = x]: the table and the value afterwards.  A mapping written
    in place is changed where it stands; a shared one is changed in the
    table, and so for every reference to it. *)
Definition setitem (table : gmap string object) (v : yaml) (key : string) (x : yaml)
  : result (gmap string object * yaml) :=
  match v with
  | YMap d => Ok (table, YMap (dict_set key x d))
  | YAlias a =>
      match table !! a with
      | Some (OMap d) => Ok (<[a := OMap (dict_set key x d)]> table, v)
      | Some (OSeq _) =>
          Raise (Exn TypeError "list indices must be integers or slices, not str")
      | None => Raise (Exn TypeError "'NoneType' object does not support item assignment")
      end
  | YSeq _ => Raise (Exn TypeError "list indices must be integers or slices, not str")
  | o =>
      Raise (Exn TypeError ("'" +:+ type_name o +:+ "' object does not support item assignment"))
  end.

(** [key in v]: a key of a mapping, an item of a sequence, a substring
    of a string. *)
Definition contains (table : gmap string object) (v : yaml) (key : string)
  : result bool :=
  match deref table v with
  | YMap d => Ok (bool_decide (key ∈ d.*1))
  | YSeq l =>
      Ok (existsb (λ y, match y with
                        | YStr s => bool_decide (s = key)
                        | _ => false
                        end) l)
  | YStr s => Ok (bool_decide (is_Some (String.index 0 key s)))
  | o => Raise (Exn TypeError ("argument of type '" +:+ type_name o +:+ "' is not iterable"))
  end.

(** [config[key1][key2] = x].  [config[key1]] is one object, changed in
    place: shared, it is changed in the table and [config] holds the
    same alias as before; written in place in [config], its new value
    stands at its key. *)
Definition setitem_in (config : document) (key1 key2 : string) (x : yaml)
  : result document :=
  inner ← getitem (anchors config) (root config) key1;
  changed ← setitem (anchors config) inner key2 x;
  match inner with
  | YAlias _ => Ok (mkDocument changed.1 (root config))
  | _ =>
      put_back ← setitem changed.1 (root config) key1 changed.2;
      Ok (mkDocument put_back.1 put_back.2)
  end.

(** Lines 243-246 on the loaded document. *)
Definition update_rules (config : document) (target : list string) : result document :=
  (* config['rules']['http'] = target_http_cidrs *)
  config ← setitem_in config "rules" "http" (YSeq (YStr <$> target));
  (* if 'ssh' not in config['rules']: *)
  rules ← getitem (anchors config) (root config) "rules";
  present ← contains (anchors config) rules "ssh";
  if negb present then
    (* config['rules']['ssh'] = ['0.0.0.0/0'] *)
    setitem_in config "rules" "ssh" (YSeq [YStr ALL_ADDRESSES])
  else Ok config.

(** [not region] *)
Definition no_region (region : option string) : bool :=
  match region with
  | None => true
  | Some r => bool_decide (r = "")
  end.

Definition main : M unit :=
  print MsgBanner ;;;
  print MsgTitle ;;;
  print MsgBanner ;;;
  (* 1. Get IPs *)
  home_ip <- get_current_ip ;;
  print (MsgHomeIp home_ip) ;;;
  cf_ips <- get_cloudflare_ips ;;
  print (MsgFetched (length cf_ips)) ;;;
  (* 2. Prepare target rules *)
  let target_http_cidrs := target_http_cidrs home_ip cf_ips in
  (* 3. AWS Setup *)
  region <- call (EvSession None) (λ w, boto3_session w None) ;;
  region <-
    (if no_region region then
       call (EvSession (Some "eu-west-1")) (λ w, boto3_session w (Some "eu-west-1")) ;;;
       ret "eu-west-1"
     else ret (default "" region)) ;;
  print (MsgRegion region) ;;;
  call (EvClient "ec2") (λ w, session_client w "ec2") ;;;
  (* 4. Find Security Group *)
  sg_id <- get_security_group_id ;;
  print (MsgFoundGroup sg_id) ;;;
  (* 5. Sync Rules *)
  update_security_group sg_id target_http_cidrs ;;;
  print MsgSynced ;;;
  (* 6. Update YAML *)
  config <- load_yaml_config ;;
  config <- lift (update_rules config target_http_cidrs) ;;
  save_yaml_config config ;;;
  print MsgUpdatedYaml ;;;
  (* 7. Git Ops *)
  git_commit_and_push ;;;
  print MsgBanner ;;;
  print MsgCompleted ;;;
  print MsgTestUrl ;;;
  print MsgBanner.

(** * Properties *)

(** ** The two scans of the current permissions *)

Section scans.
Implicit Types (perms : list IpPermission) (ranges : list IpRange).
Implicit Types (cidrs cur : gset string) (c : string).

(** A permission of [perms] on [port] lists the address [c]. *)
Definition lists_cidr (port : Z) (c : string) perms : Prop :=
  ∃ perm ip_range,
    perm ∈ perms ∧ FromPort perm = Some port ∧ ToPort perm = Some port ∧
    ip_range ∈ ip_ranges perm ∧ CidrIp ip_range = Some c.

Lemma on_port_true port perm :
  on_port port perm = true ↔ FromPort perm = Some port ∧ ToPort perm = Some port.
Proof.
  unfold on_port. rewrite andb_true_iff, !bool_decide_eq_true. done.
Qed.

Lemma ssh_ranges_loop_true ranges b :
  ssh_ranges_loop ranges b = true ↔
  b = true ∨ ∃ ip_range, ip_range ∈ ranges ∧ CidrIp ip_range = Some ALL_ADDRESSES.
Proof.
  induction ranges as [|r ranges IH]; simpl.
  - split; [by left|]. intros [?|(?&Hin&_)]; [done|]. by apply elem_of_nil in Hin.
  - case_bool_decide as Hr.
    + split; [|done]. intros _. right. exists r. split; [left|done].
    + rewrite IH. split.
      * intros [?|(x&?&?)]; [by left|]. right. exists x. split; [by right|done].
      * intros [?|(x&Hin&?)]; [by left|].
        apply elem_of_cons in Hin as [->|?]; [done|]. right. by exists x.
Qed.

Lemma ssh_loop_true perms b :
  ssh_loop perms b = true ↔ b = true ∨ lists_cidr SSH_PORT ALL_ADDRESSES perms.
Proof.
  revert b. induction perms as [|perm perms IH]; intros b; simpl.
  - split; [by left|]. intros [?|(?&?&Hin&_)]; [done|]. by apply elem_of_nil in Hin.
  - rewrite IH. destruct (on_port SSH_PORT perm) eqn:Hp.
    + apply on_port_true in Hp as [Hf Ht]. rewrite ssh_ranges_loop_true. split.
      * intros [[?|(r&?&?)]|(p&r&?&?)]; [by left| |].
        -- right. exists perm, r. split; [left|done].
        -- right. exists p, r. split; [by right|done].
      * intros [?|(p&r&Hin&?&?&?&?)]; [by left; left|].
        apply elem_of_cons in Hin as [->|?].
        -- left. right. by exists r.
        -- right. by exists p, r.
    + split.
      * intros [?|(p&r&?&?)]; [by left|]. right. exists p, r. split; [by right|done].
      * intros [?|(p&r&Hin&Hf&Ht&?&?)]; [by left|].
        apply elem_of_cons in Hin as [->|?].
        -- assert (on_port SSH_PORT perm = true) by by apply on_port_true.
           congruence.
        -- right. by exists p, r.
Qed.

(** [ssh_open] after the loop: some port-22 permission lists 0.0.0.0/0. *)
Lemma ssh_open_iff perms :
  ssh_loop perms false = true ↔ lists_cidr SSH_PORT ALL_ADDRESSES perms.
Proof. rewrite ssh_loop_true. naive_solver. Qed.

Lemma http_ranges_loop_Ok ranges cidrs cur :
  http_ranges_loop ranges cidrs = Ok cur →
  ∀ c, c ∈ cur ↔ c ∈ cidrs ∨ ∃ ip_range, ip_range ∈ ranges ∧ CidrIp ip_range = Some c.
Proof.
  revert cidrs. induction ranges as [|r ranges IH]; intros cidrs; simpl.
  - intros [= <-] c. split; [by left|]. intros [?|(?&Hin&_)]; [done|].
    by apply elem_of_nil in Hin.
  - destruct (CidrIp r) as [cidr|] eqn:Hr; [|done].
    intros H c. rewrite (IH _ H c), elem_of_union, elem_of_singleton. split.
    + intros [[?| ->]|(x&?&?)]; [by left| |].
      * right. exists r. split; [left|done].
      * right. exists x. split; [by right|done].
    + intros [?|(x&Hin&Hx)]; [by left; left|].
      apply elem_of_cons in Hin as [->|?].
      * left. right. congruence.
      * right. by exists x.
Qed.

Lemma http_loop_Ok perms cidrs cur :
  http_loop perms cidrs = Ok cur →
  ∀ c, c ∈ cur ↔ c ∈ cidrs ∨ lists_cidr HTTP_PORT c perms.
Proof.
  revert cidrs. induction perms as [|perm perms IH]; intros cidrs; simpl.
  - intros [= <-] c. split; [by left|]. intros [?|(?&?&Hin&_)]; [done|].
    by apply elem_of_nil in Hin.
  - destruct (on_port HTTP_PORT perm) eqn:Hp.
    + destruct (http_ranges_loop (ip_ranges perm) cidrs) as [cidrs'|] eqn:Hr; [|done].
      apply on_port_true in Hp as [Hf Ht].
      intros H c. rewrite (IH _ H c), (http_ranges_loop_Ok _ _ _ Hr c). split.
      * intros [[?|(r&?&?)]|(p&r&?&?)]; [by left| |].
        -- right. exists perm, r. split; [left|done].
        -- right. exists p, r. split; [by right|done].
      * intros [?|(p&r&Hin&?&?&?&?)]; [by left; left|].
        apply elem_of_cons in Hin as [->|?].
        -- left. right. by exists r.
        -- right. by exists p, r.
    + intros H c. rewrite (IH _ H c). split.
      * intros [?|(p&r&?&?)]; [by left|]. right. exists p, r. split; [by right|done].
      * intros [?|(p&r&Hin&Hf&Ht&?&?)]; [by left|].
        apply elem_of_cons in Hin as [->|?].
        -- assert (on_port HTTP_PORT perm = true) by by apply on_port_true.
           congruence.
        -- right. by exists p, r.
Qed.

(** The current HTTP set: exactly the addresses listed on port 80. *)
Lemma current_http_cidrs_iff perms cur :
  http_loop perms ∅ = Ok cur → ∀ c, c ∈ cur ↔ lists_cidr HTTP_PORT c perms.
Proof.
  intros H c. rewrite (http_loop_Ok _ _ _ H c). set_solver.
Qed.

(** No permission on port 80: the loop leaves the set as it was. *)
Lemma http_loop_no_rule perms cidrs :
  (∀ perm, perm ∈ perms → on_port HTTP_PORT perm = false) →
  http_loop perms cidrs = Ok cidrs.
Proof.
  induction perms as [|perm perms IH]; intros H; simpl; [done|].
  rewrite (H perm) by left. apply IH. intros p ?. apply H. by right.
Qed.

Lemma http_ranges_loop_total ranges cidrs :
  (∀ ip_range, ip_range ∈ ranges → is_Some (CidrIp ip_range)) →
  ∃ cur, http_ranges_loop ranges cidrs = Ok cur.
Proof.
  revert cidrs. induction ranges as [|r ranges IH]; intros cidrs H; simpl; [by eexists|].
  destruct (H r) as [cidr ->]; [left|]. apply IH. intros x ?. apply H. by right.
Qed.

(** The HTTP loop raises only on a port-80 range without ['CidrIp']. *)
Lemma http_loop_total perms cidrs :
  (∀ perm ip_range, perm ∈ perms → on_port HTTP_PORT perm = true →
     ip_range ∈ ip_ranges perm → is_Some (CidrIp ip_range)) →
  ∃ cur, http_loop perms cidrs = Ok cur.
Proof.
  revert cidrs. induction perms as [|perm perms IH]; intros cidrs H; simpl; [by eexists|].
  destruct (on_port HTTP_PORT perm) eqn:Hp.
  - destruct (http_ranges_loop_total (ip_ranges perm) cidrs) as [cur ->].
    { intros r ?. apply (H perm); [left|done..]. }
    apply IH. intros p r ?. apply H. by right.
  - apply IH. intros p r ?. apply H. by right.
Qed.

(** Neither loop reads ['IpProtocol']. *)
Definition with_protocol (proto : option string) (perm : IpPermission) : IpPermission :=
  {| IpProtocol := proto; FromPort := FromPort perm; ToPort := ToPort perm;
     IpRanges := IpRanges perm |}.

Lemma ssh_loop_protocol (f : IpPermission → option string) perms b :
  ssh_loop ((λ perm, with_protocol (f perm) perm) <$> perms) b = ssh_loop perms b.
Proof. revert b. induction perms as [|perm perms IH]; intros b; simpl; [done|]. by rewrite IH. Qed.

Lemma http_loop_protocol (f : IpPermission → option string) perms cidrs :
  http_loop ((λ perm, with_protocol (f perm) perm) <$> perms) cidrs = http_loop perms cidrs.
Proof.
  revert cidrs. induction perms as [|perm perms IH]; intros cidrs; simpl; [done|].
  unfold on_port, ip_ranges; simpl.
  destruct (_ && _); [|by rewrite IH].
  destruct (http_ranges_loop _ _); [by rewrite IH|done].
Qed.
(** Every set of addresses is the current HTTP set of some permissions. *)
Lemma http_ranges_loop_addresses (l : list string) cidrs :
  http_ranges_loop ((λ cidr, mkIpRange (Some cidr)) <$> l) cidrs
  = Ok (cidrs ∪ list_to_set l).
Proof.
  revert cidrs. induction l as [|c l IH]; intros cidrs; simpl.
  - f_equal. set_solver.
  - rewrite IH. f_equal. set_solver.
Qed.

Lemma http_loop_http_permission cur : http_loop [http_permission cur] ∅ = Ok cur.
Proof.
  simpl. unfold ip_ranges. simpl. rewrite http_ranges_loop_addresses.
  f_equal. rewrite list_to_set_elements_L. set_solver.
Qed.
End scans.

(** ** Runs of update_security_group *)

Definition is_mutation (ev : event) : bool :=
  match ev with
  | EvAuthorize _ _ | EvRevoke _ _ => true
  | _ => false
  end.

(** The calls on the mutation sink among the events, in order. *)
Definition mutations (evs : list event) : list event := filter is_mutation evs.

(** The three steps of the function, as the events of a run in which
    the sink raises nothing. *)
Definition ssh_step (sg_id : string) (perms : list IpPermission) : list event :=
  if ssh_loop perms false then []
  else [EvPrint MsgAddingSsh; EvAuthorize sg_id [ssh_permission]].

Definition revoke_step (sg_id : string) (to_revoke : gset string) : list event :=
  if bool_decide (to_revoke ≠ ∅)
  then [EvPrint (MsgRevoking (size to_revoke)); EvRevoke sg_id [http_permission to_revoke]]
  else [].

Definition authorize_step (sg_id : string) (to_authorize : gset string) : list event :=
  if bool_decide (to_authorize ≠ ∅)
  then [EvPrint (MsgAuthorizing (size to_authorize));
        EvAuthorize sg_id [http_permission to_authorize]]
  else [].

Definition http_steps (sg_id : string) (perms : list IpPermission)
    (allowed_cidrs : list string) : list event :=
  match http_loop perms ∅ with
  | Ok cur =>
      revoke_step sg_id (cur ∖ list_to_set allowed_cidrs)
      ++ authorize_step sg_id (list_to_set allowed_cidrs ∖ cur)
  | Raise _ => []
  end.

(** The permissions that the read of the group returned, if it did. *)
Definition read_permissions (w : World) (h : list event) (sg_id : string)
  : option (list IpPermission) :=
  match describe_security_groups w (GroupIds [sg_id]) h with
  | Ok (sg :: _) => Some (IpPermissions sg)
  | _ => None
  end.

Definition planned (w : World) (h : list event) (sg_id : string)
    (allowed_cidrs : list string) : list event :=
  match read_permissions w h sg_id with
  | Some perms => ssh_step sg_id perms ++ http_steps sg_id perms allowed_cidrs
  | None => []
  end.

(** The sink accepts every call. *)
Definition sink_accepts (w : World) : Prop :=
  (∀ sg_id perms h, authorize_security_group_ingress w sg_id perms h = Ok tt) ∧
  (∀ sg_id perms h, revoke_security_group_ingress w sg_id perms h = Ok tt).

Ltac unfold_run :=
  unfold update_security_group, try_except, bind, describe, authorize, revoke,
    call, print, ret, raise, sys_exit, lift.

(** A run in which the read succeeds, every port-80 range has its
    address and the sink accepts the calls: the function returns [True]
    after the read and the three steps. *)
Lemma update_security_group_run w h sg_id allowed_cidrs sg rest cur :
  describe_security_groups w (GroupIds [sg_id]) h = Ok (sg :: rest) →
  http_loop (IpPermissions sg) ∅ = Ok cur →
  sink_accepts w →
  update_security_group sg_id allowed_cidrs w h =
    (Returned true,
     EvDescribe (GroupIds [sg_id]) ::
       ssh_step sg_id (IpPermissions sg)
       ++ revoke_step sg_id (cur ∖ list_to_set allowed_cidrs)
       ++ authorize_step sg_id (list_to_set allowed_cidrs ∖ cur)).
Proof.
  intros Hd Hc [Ha Hr]. unfold_run. rewrite Hd. simpl.
  unfold ssh_step, revoke_step, authorize_step.
  destruct (ssh_loop (IpPermissions sg) false); simpl;
    rewrite ?Ha, Hc; simpl;
    repeat (case_bool_decide; simpl; rewrite ?Ha, ?Hr; simpl); done.
Qed.

(** In every run the calls on the sink are an initial part of the
    planned ones. *)
Lemma update_security_group_mutations w h sg_id allowed_cidrs :
  mutations (update_security_group sg_id allowed_cidrs w h).2
    `prefix_of` mutations (planned w h sg_id allowed_cidrs).
Proof.
  unfold planned, read_permissions, http_steps. unfold_run.
  destruct (describe_security_groups w (GroupIds [sg_id]) h) as [[|sg rest]|e];
    simpl; [apply prefix_nil| |apply prefix_nil].
  unfold ssh_step, revoke_step, authorize_step.
  destruct (ssh_loop (IpPermissions sg) false); simpl.
  - destruct (http_loop (IpPermissions sg) ∅) as [cur|e]; simpl; [|apply prefix_nil].
    repeat (case_bool_decide; simpl);
      repeat (match goal with
              | |- context [authorize_security_group_ingress ?w ?g ?p ?h] =>
                  destruct (authorize_security_group_ingress w g p h)
              | |- context [revoke_security_group_ingress ?w ?g ?p ?h] =>
                  destruct (revoke_security_group_ingress w g p h)
              end; simpl);
      unfold mutations; simpl;
      repeat first [done | apply prefix_nil | apply prefix_cons].
  - destruct (authorize_security_group_ingress w sg_id [ssh_permission] _); simpl.
    + destruct (http_loop (IpPermissions sg) ∅) as [cur|e]; simpl.
      * repeat (case_bool_decide; simpl);
          repeat (match goal with
                  | |- context [authorize_security_group_ingress ?w ?g ?p ?h] =>
                      destruct (authorize_security_group_ingress w g p h)
                  | |- context [revoke_security_group_ingress ?w ?g ?p ?h] =>
                      destruct (revoke_security_group_ingress w g p h)
                  end; simpl);
          unfold mutations; simpl;
          repeat first [done | apply prefix_nil | apply prefix_cons].
      * unfold mutations; simpl. done.
    + destruct (http_loop (IpPermissions sg) ∅) as [cur|e']; simpl;
        unfold mutations; simpl; repeat first [done | apply prefix_nil | apply prefix_cons].
Qed.

(** ** What the calls on the sink name *)

(** The addresses a permission lists. *)
Definition permission_cidrs (perm : IpPermission) : gset string :=
  list_to_set (omap CidrIp (ip_ranges perm)).

(** The addresses of the permissions on [port] among [perms]. *)
Definition cidrs_on (port : Z) (perms : list IpPermission) : gset string :=
  ⋃ (permission_cidrs <$> filter (λ perm, on_port port perm) perms).

(** The addresses that the revoke calls of a run name on [port]. *)
Fixpoint revoked_on (port : Z) (evs : list event) : gset string :=
  match evs with
  | [] => ∅
  | EvRevoke _ perms :: rest => cidrs_on port perms ∪ revoked_on port rest
  | _ :: rest => revoked_on port rest
  end.

(** The addresses that the authorize calls of a run name on [port]. *)
Fixpoint authorized_on (port : Z) (evs : list event) : gset string :=
  match evs with
  | [] => ∅
  | EvAuthorize _ perms :: rest => cidrs_on port perms ∪ authorized_on port rest
  | _ :: rest => authorized_on port rest
  end.

(** The address set of [port] once the calls of a run are applied to
    it: the revoked addresses leave, the authorized ones enter. *)
Definition after_run (port : Z) (evs : list event) (cidrs : gset string) : gset string :=
  (cidrs ∖ revoked_on port evs) ∪ authorized_on port evs.

Definition event_permissions (ev : event) : list IpPermission :=
  match ev with
  | EvAuthorize _ perms | EvRevoke _ perms => perms
  | _ => []
  end.

Lemma permission_cidrs_http cidrs : permission_cidrs (http_permission cidrs) = cidrs.
Proof.
  apply set_eq. intros c. unfold permission_cidrs, http_permission, ip_ranges. simpl.
  rewrite elem_of_list_to_set, list_elem_of_omap. split.
  - intros (r & Hr & Hc). apply list_elem_of_fmap in Hr as (c' & -> & Hin).
    simpl in Hc. injection Hc as <-. by apply elem_of_elements.
  - intros Hin. exists (mkIpRange (Some c)). split; [|done].
    apply list_elem_of_fmap. exists c. split; [done|]. by apply elem_of_elements.
Qed.

Lemma cidrs_on_http cidrs : cidrs_on HTTP_PORT [http_permission cidrs] = cidrs.
Proof.
  unfold cidrs_on. rewrite (filter_cons_True _ (http_permission cidrs) []) by done.
  rewrite filter_nil. simpl. rewrite permission_cidrs_http. set_solver.
Qed.

Lemma cidrs_on_http_ssh cidrs : cidrs_on SSH_PORT [http_permission cidrs] = ∅.
Proof.
  unfold cidrs_on.
  by rewrite (filter_cons_False _ (http_permission cidrs) []) by (by intros ?).
Qed.

Lemma cidrs_on_ssh_http : cidrs_on HTTP_PORT [ssh_permission] = ∅.
Proof.
  unfold cidrs_on. by rewrite (filter_cons_False _ ssh_permission []) by (by intros ?).
Qed.

Lemma revoked_on_app port evs1 evs2 :
  revoked_on port (evs1 ++ evs2) = revoked_on port evs1 ∪ revoked_on port evs2.
Proof.
  induction evs1 as [|[] evs1 IH]; simpl; rewrite ?IH; set_solver.
Qed.

Lemma authorized_on_app port evs1 evs2 :
  authorized_on port (evs1 ++ evs2) = authorized_on port evs1 ∪ authorized_on port evs2.
Proof.
  induction evs1 as [|[] evs1 IH]; simpl; rewrite ?IH; set_solver.
Qed.

Lemma revoked_on_mutations port evs :
  revoked_on port (mutations evs) = revoked_on port evs.
Proof.
  unfold mutations. induction evs as [|ev evs IH]; [done|].
  rewrite filter_cons. destruct ev; simpl; by rewrite ?IH.
Qed.

Lemma revoked_on_steps port sg_id perms to_revoke to_authorize :
  revoked_on port (ssh_step sg_id perms ++ revoke_step sg_id to_revoke
                   ++ authorize_step sg_id to_authorize)
  = if bool_decide (to_revoke ≠ ∅) then cidrs_on port [http_permission to_revoke] else ∅.
Proof.
  rewrite !revoked_on_app. unfold ssh_step, revoke_step, authorize_step.
  destruct (ssh_loop perms false); repeat case_bool_decide; simpl; set_solver.
Qed.

Lemma authorized_on_steps sg_id perms to_revoke to_authorize :
  authorized_on HTTP_PORT (ssh_step sg_id perms ++ revoke_step sg_id to_revoke
                           ++ authorize_step sg_id to_authorize)
  = to_authorize.
Proof.
  rewrite !authorized_on_app. unfold ssh_step, revoke_step, authorize_step.
  destruct (ssh_loop perms false); repeat case_bool_decide; simpl;
    rewrite ?cidrs_on_http, ?cidrs_on_ssh_http; set_solver.
Qed.

(** ** Concrete worlds *)

Definition LF : string := String (ascii_of_nat 10) EmptyString.

(** A world in which every call succeeds: the group read returns
    [groups], the YAML file holds [config] and git sees a change. *)
Definition calm_world (groups : list SecurityGroup) (config : document) : World :=
  {| requests_get := λ url _,
       if bool_decide (url = CHECKIP_URL) then Ok ("198.51.100.7" +:+ LF)
       else Ok ("173.245.48.0/20" +:+ LF +:+ "103.21.244.0/22" +:+ LF);
     boto3_session := λ _ _, Ok (Some "eu-west-1");
     session_client := λ _ _, Ok tt;
     describe_security_groups := λ _ _, Ok groups;
     authorize_security_group_ingress := λ _ _ _, Ok tt;
     revoke_security_group_ingress := λ _ _ _, Ok tt;
     path_exists := λ _ _, true;
     yaml_safe_load := λ _ _, Ok config;
     yaml_dump := λ _ _ _, Ok tt;
     check_output := λ _ _, Ok " M security-group.yaml";
     check_call := λ _ _, Ok tt |}.

Definition tcp_permission (port : Z) (cidrs : list string) : IpPermission :=
  {| IpProtocol := Some "tcp"; FromPort := Some port; ToPort := Some port;
     IpRanges := Some ((λ cidr, mkIpRange (Some cidr)) <$> cidrs) |}.

Definition sample_config : document :=
  plain (YMap [("name", YStr "security-group"); ("rules", YMap [("http", YSeq [])])]).

(** ** The HTTP diff *)

(** C1.  In a run whose read returns the permissions, with current HTTP
    set [cur], the addresses named by the revoke call are exactly those
    of [cur] that are not allowed, and the addresses named by the HTTP
    authorize call are exactly the allowed ones that are not in [cur];
    [cur] holds the addresses listed on port 80 and is empty when no
    permission is on port 80. *)
Theorem diff_is_set_difference w h sg_id allowed_cidrs sg rest cur :
  describe_security_groups w (GroupIds [sg_id]) h = Ok (sg :: rest) →
  http_loop (IpPermissions sg) ∅ = Ok cur →
  sink_accepts w →
  let evs := (update_security_group sg_id allowed_cidrs w h).2 in
  revoked_on HTTP_PORT evs = cur ∖ list_to_set allowed_cidrs ∧
  authorized_on HTTP_PORT evs = list_to_set allowed_cidrs ∖ cur ∧
  (∀ c, c ∈ revoked_on HTTP_PORT evs ↔ c ∈ cur ∧ c ∉ allowed_cidrs) ∧
  (∀ c, c ∈ authorized_on HTTP_PORT evs ↔ c ∈ allowed_cidrs ∧ c ∉ cur) ∧
  (∀ c, c ∈ cur ↔ lists_cidr HTTP_PORT c (IpPermissions sg)) ∧
  ((∀ perm, perm ∈ IpPermissions sg → on_port HTTP_PORT perm = false) → cur = ∅).
Proof.
  intros Hd Hc Hs evs. subst evs.
  rewrite (update_security_group_run _ _ _ _ _ _ _ Hd Hc Hs). simpl.
  rewrite revoked_on_steps, authorized_on_steps, cidrs_on_http.
  assert (Hrev : (if bool_decide (cur ∖ list_to_set allowed_cidrs ≠ (∅ : gset string))
                  then cur ∖ list_to_set allowed_cidrs else ∅)
                 = cur ∖ (list_to_set allowed_cidrs : gset string)).
  { case_bool_decide as Hne; [done|]. by rewrite Hne. }
  rewrite Hrev. split_and!.
  - done.
  - done.
  - set_solver.
  - set_solver.
  - by apply current_http_cidrs_iff.
  - intros Hno. rewrite (http_loop_no_rule _ ∅ Hno) in Hc. congruence.
Qed.

(** The spec's example: current {1.1.1.1/32, 2.2.2.2/32}, desired
    {2.2.2.2/32, 3.3.3.3/32}. *)
Lemma diff_is_set_difference_example :
  let sg := mkSecurityGroup "sg-1" [tcp_permission 80 ["1.1.1.1/32"; "2.2.2.2/32"]] in
  let w := calm_world [sg] sample_config in
  let evs := (update_security_group "sg-1" ["2.2.2.2/32"; "3.3.3.3/32"] w []).2 in
  http_loop (IpPermissions sg) ∅ = Ok {["1.1.1.1/32"; "2.2.2.2/32"]} ∧
  revoked_on HTTP_PORT evs = {["1.1.1.1/32"]} ∧
  authorized_on HTTP_PORT evs = {["3.3.3.3/32"]}.
Proof.
  intros sg w evs.
  assert (Hc : http_loop (IpPermissions sg) ∅ = Ok {["1.1.1.1/32"; "2.2.2.2/32"]})
    by (vm_compute; reflexivity).
  assert (Hs : sink_accepts w) by (split; intros; reflexivity).
  destruct (diff_is_set_difference w [] "sg-1" ["2.2.2.2/32"; "3.3.3.3/32"] sg [] _
              eq_refl Hc Hs) as (Hr & Ha & _).
  split; [exact Hc|]. split.
  - etransitivity; [exact Hr|]. vm_compute. reflexivity.
  - etransitivity; [exact Ha|]. vm_compute. reflexivity.
Defined.

(** ** Convergence *)

(** C2.  In a run whose read succeeds and whose calls the sink accepts,
    the function returns [True], and revoking the addresses of its revoke
    call from the current HTTP set, then adding those of its authorize
    call, gives exactly the allowed addresses. *)
Theorem reconcile_converges w h sg_id allowed_cidrs sg rest cur :
  describe_security_groups w (GroupIds [sg_id]) h = Ok (sg :: rest) →
  http_loop (IpPermissions sg) ∅ = Ok cur →
  sink_accepts w →
  let r := update_security_group sg_id allowed_cidrs w h in
  r.1 = Returned true ∧
  after_run HTTP_PORT r.2 cur = list_to_set allowed_cidrs ∧
  (∀ c, c ∈ after_run HTTP_PORT r.2 cur ↔ c ∈ allowed_cidrs).
Proof.
  intros Hd Hc Hs r. subst r.
  rewrite (update_security_group_run _ _ _ _ _ _ _ Hd Hc Hs). simpl.
  assert (Hafter : after_run HTTP_PORT
            (EvDescribe (GroupIds [sg_id]) ::
               ssh_step sg_id (IpPermissions sg)
               ++ revoke_step sg_id (cur ∖ list_to_set allowed_cidrs)
               ++ authorize_step sg_id (list_to_set allowed_cidrs ∖ cur)) cur
          = list_to_set allowed_cidrs).
  { unfold after_run. simpl.
    rewrite revoked_on_steps, authorized_on_steps, cidrs_on_http.
    apply set_eq. intros c. rewrite elem_of_list_to_set.
    destruct (decide (c ∈ cur));
      destruct (decide (c ∈@{gset string} list_to_set allowed_cidrs));
      case_bool_decide; set_solver. }
  split_and!; [done|done|].
  intros c. rewrite Hafter. apply elem_of_list_to_set.
Qed.

Lemma reconcile_converges_example :
  let sg := mkSecurityGroup "sg-1" [tcp_permission 80 ["1.1.1.1/32"; "2.2.2.2/32"]] in
  let w := calm_world [sg] sample_config in
  let r := update_security_group "sg-1" ["2.2.2.2/32"; "3.3.3.3/32"] w [] in
  r.1 = Returned true ∧
  after_run HTTP_PORT r.2 {["1.1.1.1/32"; "2.2.2.2/32"]} = {["2.2.2.2/32"; "3.3.3.3/32"]}.
Proof.
  intros sg w r.
  assert (Hc : http_loop (IpPermissions sg) ∅ = Ok {["1.1.1.1/32"; "2.2.2.2/32"]})
    by (vm_compute; reflexivity).
  assert (Hs : sink_accepts w) by (split; intros; reflexivity).
  destruct (reconcile_converges w [] "sg-1" ["2.2.2.2/32"; "3.3.3.3/32"] sg [] _
              eq_refl Hc Hs) as (Ho & Ha & _).
  split; [exact Ho|]. etransitivity; [exact Ha|]. vm_compute. reflexivity.
Defined.

(** ** The no-op run *)

(** C3.  When a port-22 permission already lists 0.0.0.0/0 and the
    current HTTP set has exactly the allowed addresses, the run consists
    of the read alone and the function returns [True]. *)
Theorem in_sync_is_noop w h sg_id allowed_cidrs sg rest cur :
  describe_security_groups w (GroupIds [sg_id]) h = Ok (sg :: rest) →
  lists_cidr SSH_PORT ALL_ADDRESSES (IpPermissions sg) →
  http_loop (IpPermissions sg) ∅ = Ok cur →
  (∀ c, c ∈ cur ↔ c ∈ allowed_cidrs) →
  update_security_group sg_id allowed_cidrs w h
    = (Returned true, [EvDescribe (GroupIds [sg_id])]) ∧
  mutations (update_security_group sg_id allowed_cidrs w h).2 = [].
Proof.
  intros Hd Hssh Hc Heq.
  apply ssh_open_iff in Hssh.
  assert (Hrun : update_security_group sg_id allowed_cidrs w h
                 = (Returned true, [EvDescribe (GroupIds [sg_id])])).
  { unfold_run. rewrite Hd. simpl. rewrite Hssh. simpl. rewrite Hc. simpl.
    rewrite !bool_decide_eq_false_2; [done| |].
    - intros Hne. apply Hne. apply set_eq. intros c.
      rewrite elem_of_difference, elem_of_list_to_set, Heq. set_solver.
    - intros Hne. apply Hne. apply set_eq. intros c.
      rewrite elem_of_difference, elem_of_list_to_set, Heq. set_solver. }
  by rewrite Hrun.
Qed.

Lemma in_sync_is_noop_example :
  let sg := mkSecurityGroup "sg-1"
              [tcp_permission 22 ["0.0.0.0/0"]; tcp_permission 80 ["9.9.9.9/32"]] in
  let w := calm_world [sg] sample_config in
  update_security_group "sg-1" ["9.9.9.9/32"] w []
    = (Returned true, [EvDescribe (GroupIds ["sg-1"])]) ∧
  mutations (update_security_group "sg-1" ["9.9.9.9/32"] w []).2 = [].
Proof.
  intros sg w.
  apply (in_sync_is_noop w [] "sg-1" ["9.9.9.9/32"] sg [] {["9.9.9.9/32"]}).
  - reflexivity.
  - apply ssh_open_iff. vm_compute. reflexivity.
  - vm_compute. reflexivity.
  - intros c. rewrite elem_of_singleton, list_elem_of_singleton. reflexivity.
Defined.

(** ** A failed read *)

(** C6.  When the read of the group raises, the function prints the
    error and exits with status 1; the read is the only call it made. *)
Theorem read_failure_is_fatal w h sg_id allowed_cidrs e :
  describe_security_groups w (GroupIds [sg_id]) h = Raise e →
  update_security_group sg_id allowed_cidrs w h
    = (SysExit 1, [EvDescribe (GroupIds [sg_id]); EvPrint (MsgErrUpdating e)]) ∧
  mutations (update_security_group sg_id allowed_cidrs w h).2 = [] ∧
  exit_status (update_security_group sg_id allowed_cidrs w h).1 ≠ 0.
Proof.
  intros Hd.
  assert (Hrun : update_security_group sg_id allowed_cidrs w h
            = (SysExit 1, [EvDescribe (GroupIds [sg_id]); EvPrint (MsgErrUpdating e)])).
  { unfold_run. by rewrite Hd. }
  rewrite Hrun. by split_and!.
Qed.

(** A world whose group read is refused. *)
Definition unreadable_world : World :=
  {| requests_get := requests_get (calm_world [] sample_config);
     boto3_session := λ _ _, Ok (Some "eu-west-1");
     session_client := λ _ _, Ok tt;
     describe_security_groups := λ _ _, Raise (Exn ClientError "UnauthorizedOperation");
     authorize_security_group_ingress := λ _ _ _, Ok tt;
     revoke_security_group_ingress := λ _ _ _, Ok tt;
     path_exists := λ _ _, true;
     yaml_safe_load := λ _ _, Ok sample_config;
     yaml_dump := λ _ _ _, Ok tt;
     check_output := λ _ _, Ok "";
     check_call := λ _ _, Ok tt |}.

Lemma read_failure_is_fatal_example :
  let r := update_security_group "sg-1" ["9.9.9.9/32"] unreadable_world [] in
  r.1 = SysExit 1 ∧ mutations r.2 = [].
Proof.
  intros r.
  destruct (read_failure_is_fatal unreadable_world [] "sg-1" ["9.9.9.9/32"]
              (Exn ClientError "UnauthorizedOperation") eq_refl) as (Hrun & Hm & _).
  split; [|exact Hm]. subst r. by rewrite Hrun.
Defined.

(** ** Every run: what reaches the sink *)

Lemma prefix_Forall {A} (P : A → Prop) (l1 l2 : list A) :
  l1 `prefix_of` l2 → Forall P l2 → Forall P l1.
Proof. intros [k ->] H. by apply Forall_app in H as [? _]. Qed.

Lemma prefix_filter_length {A} (P : A → Prop) `{∀ x, Decision (P x)} (l1 l2 : list A) :
  l1 `prefix_of` l2 → (length (filter P l1) ≤ length (filter P l2))%nat.
Proof. intros [k ->]. rewrite filter_app, length_app. lia. Qed.

(** The three kinds of call the function makes on the sink. *)
Definition is_ssh_add (ev : event) : bool :=
  match ev with
  | EvAuthorize _ [perm] => on_port SSH_PORT perm
  | _ => false
  end.

Definition is_http_revoke (ev : event) : bool :=
  match ev with
  | EvRevoke _ [perm] => on_port HTTP_PORT perm
  | _ => false
  end.

Definition is_http_authorize (ev : event) : bool :=
  match ev with
  | EvAuthorize _ [perm] => on_port HTTP_PORT perm
  | _ => false
  end.

Definition is_revoke (ev : event) : bool :=
  match ev with
  | EvRevoke _ _ => true
  | _ => false
  end.

(** The planned calls: an SSH add when the scan found SSH closed, then
    at most one revoke and one authorize on port 80. *)
Lemma planned_mutations w h sg_id allowed_cidrs :
  ∃ (add rev aut : bool) (to_revoke to_authorize : gset string),
    mutations (planned w h sg_id allowed_cidrs)
    = (if add then [EvAuthorize sg_id [ssh_permission]] else [])
      ++ (if rev then [EvRevoke sg_id [http_permission to_revoke]] else [])
      ++ (if aut then [EvAuthorize sg_id [http_permission to_authorize]] else []) ∧
    (add = true →
     ∃ perms, read_permissions w h sg_id = Some perms ∧ ssh_loop perms false = false).
Proof.
  unfold planned. destruct (read_permissions w h sg_id) as [perms|].
  - unfold ssh_step, http_steps, revoke_step, authorize_step.
    destruct (ssh_loop perms false) eqn:Hssh;
      destruct (http_loop perms ∅) as [cur|e].
    + exists false, (bool_decide (cur ∖ list_to_set allowed_cidrs ≠ (∅ : gset string))),
        (bool_decide (list_to_set allowed_cidrs ∖ cur ≠ (∅ : gset string))),
        (cur ∖ list_to_set allowed_cidrs), (list_to_set allowed_cidrs ∖ cur).
      split; [|done]. by repeat case_bool_decide.
    + exists false, false, false, ∅, ∅. by split.
    + exists true, (bool_decide (cur ∖ list_to_set allowed_cidrs ≠ (∅ : gset string))),
        (bool_decide (list_to_set allowed_cidrs ∖ cur ≠ (∅ : gset string))),
        (cur ∖ list_to_set allowed_cidrs), (list_to_set allowed_cidrs ∖ cur).
      split; [|by exists perms]. by repeat case_bool_decide.
    + exists true, false, false, ∅, ∅. split; [done|by exists perms].
  - exists false, false, false, ∅, ∅. by split.
Qed.

Lemma elem_of_mutations ev evs :
  ev ∈ mutations evs ↔ ev ∈ evs ∧ is_mutation ev = true.
Proof.
  unfold mutations. rewrite list_elem_of_filter, Is_true_true. naive_solver.
Qed.

(** A property of the planned calls holds of the calls of every run. *)
Lemma mutations_Forall (P : event → Prop) w h sg_id allowed_cidrs :
  Forall P (mutations (planned w h sg_id allowed_cidrs)) →
  ∀ ev, ev ∈ (update_security_group sg_id allowed_cidrs w h).2 →
        is_mutation ev = true → P ev.
Proof.
  intros HP ev Hin Hm.
  pose proof (prefix_Forall P _ _ (update_security_group_mutations w h sg_id allowed_cidrs) HP)
    as HF.
  rewrite Forall_forall in HF. apply HF. by apply elem_of_mutations.
Qed.

Ltac Forall_split := repeat first [apply Forall_nil_2 | apply Forall_cons_2].

Lemma revoked_on_ssh_run w h sg_id allowed_cidrs :
  revoked_on SSH_PORT (update_security_group sg_id allowed_cidrs w h).2 = ∅.
Proof.
  rewrite <- revoked_on_mutations.
  destruct (update_security_group_mutations w h sg_id allowed_cidrs) as [k Hk].
  assert (Hp : revoked_on SSH_PORT (mutations (planned w h sg_id allowed_cidrs)) = ∅).
  { destruct (planned_mutations w h sg_id allowed_cidrs)
      as (add & rev & aut & to_revoke & to_authorize & -> & _).
    destruct add, rev, aut; simpl; rewrite ?cidrs_on_http_ssh; set_solver. }
  rewrite Hk, revoked_on_app in Hp. set_solver.
Qed.

(** ** SSH is only ever added *)

(** C4.  In every run: each revoke call names port 80 only, so no
    address is revoked on port 22 and 0.0.0.0/0, when it is among the
    port-22 addresses before the run, is among them after it; and a call
    that authorizes on port 22 is made only when the read returned
    permissions none of which lists 0.0.0.0/0 on port 22. *)
Theorem ssh_is_never_revoked w h sg_id allowed_cidrs :
  let evs := (update_security_group sg_id allowed_cidrs w h).2 in
  (∀ g perms perm, EvRevoke g perms ∈ evs → perm ∈ perms →
     FromPort perm = Some HTTP_PORT ∧ ToPort perm = Some HTTP_PORT ∧
     on_port SSH_PORT perm = false) ∧
  revoked_on SSH_PORT evs = ∅ ∧
  (∀ ssh_cidrs : gset string,
     ALL_ADDRESSES ∈ ssh_cidrs → ALL_ADDRESSES ∈ after_run SSH_PORT evs ssh_cidrs) ∧
  (∀ g perms perm, EvAuthorize g perms ∈ evs → perm ∈ perms →
     on_port SSH_PORT perm = true →
     ∃ current, read_permissions w h sg_id = Some current ∧
                ¬ lists_cidr SSH_PORT ALL_ADDRESSES current).
Proof.
  intros evs. subst evs.
  destruct (planned_mutations w h sg_id allowed_cidrs)
    as (add & rev & aut & to_revoke & to_authorize & Hplan & Hadd).
  split_and!.
  - intros g perms perm Hin Hperm.
    refine (mutations_Forall
      (λ ev, ∀ perm, is_revoke ev = true → perm ∈ event_permissions ev →
             FromPort perm = Some HTTP_PORT ∧ ToPort perm = Some HTTP_PORT ∧
             on_port SSH_PORT perm = false)
      w h sg_id allowed_cidrs _ _ Hin eq_refl perm eq_refl Hperm).
    rewrite Hplan. destruct add, rev, aut; simpl; Forall_split;
      try (intros ? [=]; fail);
      intros p _ Hp; apply list_elem_of_singleton in Hp as ->; done.
  - apply revoked_on_ssh_run.
  - intros ssh_cidrs Hin. unfold after_run. rewrite revoked_on_ssh_run. set_solver.
  - intros g perms perm Hin Hperm Hport.
    refine (mutations_Forall
      (λ ev, ∀ perm, is_revoke ev = false → perm ∈ event_permissions ev →
             on_port SSH_PORT perm = true →
             ∃ current, read_permissions w h sg_id = Some current ∧
                        ¬ lists_cidr SSH_PORT ALL_ADDRESSES current)
      w h sg_id allowed_cidrs _ _ Hin eq_refl perm eq_refl Hperm Hport).
    rewrite Hplan.
    assert (Hssh : add = true → ∀ p : IpPermission, p ∈ [ssh_permission] →
              ∃ current, read_permissions w h sg_id = Some current ∧
                         ¬ lists_cidr SSH_PORT ALL_ADDRESSES current).
    { intros Ht p _. destruct (Hadd Ht) as (current & Hread & Hloop).
      exists current. split; [done|]. rewrite <- ssh_open_iff. congruence. }
    destruct add, rev, aut; simpl; Forall_split;
      try (intros ? [=]; fail);
      try (intros p _ Hp _; exact (Hssh eq_refl p Hp));
      intros p _ Hp Hport'; apply list_elem_of_singleton in Hp as ->; done.
Qed.

(** ** At most three calls *)

(** C5.  In every run the function calls the sink at most three times:
    at most once to add SSH, at most once to revoke and at most once to
    authorize on port 80; each call is of one of these kinds and carries
    a single permission. *)
Theorem at_most_three_mutations w h sg_id allowed_cidrs :
  let ms := mutations (update_security_group sg_id allowed_cidrs w h).2 in
  (length ms ≤ 3)%nat ∧
  (length (filter is_ssh_add ms) ≤ 1)%nat ∧
  (length (filter is_revoke ms) ≤ 1)%nat ∧
  (length (filter is_http_authorize ms) ≤ 1)%nat ∧
  Forall (λ ev, is_ssh_add ev ∨ is_http_revoke ev ∨ is_http_authorize ev) ms ∧
  Forall (λ ev, length (event_permissions ev) = 1%nat) ms.
Proof.
  intros ms. subst ms.
  pose proof (update_security_group_mutations w h sg_id allowed_cidrs) as Hpre.
  destruct (planned_mutations w h sg_id allowed_cidrs)
    as (add & rev & aut & to_revoke & to_authorize & Hplan & _).
  rewrite Hplan in Hpre. split_and!.
  - apply prefix_length in Hpre. etransitivity; [exact Hpre|].
    destruct add, rev, aut; simpl; lia.
  - etransitivity; [exact (prefix_filter_length _ _ _ Hpre)|].
    destruct add, rev, aut; vm_compute; lia.
  - etransitivity; [exact (prefix_filter_length _ _ _ Hpre)|].
    destruct add, rev, aut; vm_compute; lia.
  - etransitivity; [exact (prefix_filter_length _ _ _ Hpre)|].
    destruct add, rev, aut; vm_compute; lia.
  - apply (prefix_Forall _ _ _ Hpre).
    destruct add, rev, aut; simpl; Forall_split; simpl; auto.
  - apply (prefix_Forall _ _ _ Hpre).
    destruct add, rev, aut; simpl; Forall_split; done.
Qed.

(** ** Ports decide, the protocol does not *)

(** The world [w] with the group read answering [groups]. *)
Definition with_groups (w : World) (groups : list SecurityGroup) : World :=
  {| requests_get := requests_get w;
     boto3_session := boto3_session w;
     session_client := session_client w;
     describe_security_groups := λ _ _, Ok groups;
     authorize_security_group_ingress := authorize_security_group_ingress w;
     revoke_security_group_ingress := revoke_security_group_ingress w;
     path_exists := path_exists w;
     yaml_safe_load := yaml_safe_load w;
     yaml_dump := yaml_dump w;
     check_output := check_output w;
     check_call := check_call w |}.

(** [perms] with every ['IpProtocol'] replaced as [f] says. *)
Definition relabel (f : IpPermission → option string) (perms : list IpPermission)
  : list IpPermission :=
  (λ perm, with_protocol (f perm) perm) <$> perms.

(** C10.  Replacing the protocols of the current permissions changes
    neither scan nor the run; an address listed by any permission whose
    two ports are 80 is in the current HTTP set, and any permission whose
    two ports are 22 and that lists 0.0.0.0/0 makes SSH count as open,
    whatever their protocol; every permission passed to the sink has
    protocol tcp. *)
Theorem classification_ignores_protocol (f : IpPermission → option string)
    (perms : list IpPermission) :
  ssh_loop (relabel f perms) false = ssh_loop perms false ∧
  http_loop (relabel f perms) ∅ = http_loop perms ∅ ∧
  (∀ w h sg_id allowed_cidrs gid,
     update_security_group sg_id allowed_cidrs
       (with_groups w [mkSecurityGroup gid (relabel f perms)]) h
     = update_security_group sg_id allowed_cidrs
         (with_groups w [mkSecurityGroup gid perms]) h) ∧
  (∀ perm ip_range c cur,
     perm ∈ perms → FromPort perm = Some HTTP_PORT → ToPort perm = Some HTTP_PORT →
     ip_range ∈ ip_ranges perm → CidrIp ip_range = Some c →
     http_loop perms ∅ = Ok cur → c ∈ cur) ∧
  (∀ perm ip_range,
     perm ∈ perms → FromPort perm = Some SSH_PORT → ToPort perm = Some SSH_PORT →
     ip_range ∈ ip_ranges perm → CidrIp ip_range = Some ALL_ADDRESSES →
     ssh_loop perms false = true) ∧
  (∀ w h sg_id allowed_cidrs ev perm,
     ev ∈ (update_security_group sg_id allowed_cidrs w h).2 →
     perm ∈ event_permissions ev → IpProtocol perm = Some "tcp").
Proof.
  split_and!.
  - apply ssh_loop_protocol.
  - apply http_loop_protocol.
  - intros w h sg_id allowed_cidrs gid.
    pose proof (ssh_loop_protocol f perms false) as Hssh.
    pose proof (http_loop_protocol f perms ∅) as Hhttp.
    fold (relabel f perms) in Hssh, Hhttp.
    unfold_run. simpl. rewrite Hssh, Hhttp.
    destruct (ssh_loop perms false); simpl;
      destruct (http_loop perms ∅); simpl;
      repeat (case_bool_decide; simpl); reflexivity.
  - intros perm r c cur Hin Hf Ht Hr Hc Hloop.
    apply (current_http_cidrs_iff _ _ Hloop). by exists perm, r.
  - intros perm r Hin Hf Ht Hr Hc. apply ssh_open_iff. by exists perm, r.
  - intros w h sg_id allowed_cidrs ev perm Hin Hperm.
    assert (Hm : is_mutation ev = true).
    { destruct ev; try done; by apply elem_of_nil in Hperm. }
    refine (mutations_Forall
      (λ ev, ∀ perm, perm ∈ event_permissions ev → IpProtocol perm = Some "tcp")
      w h sg_id allowed_cidrs _ _ Hin Hm perm Hperm).
    destruct (planned_mutations w h sg_id allowed_cidrs)
      as (add & rev & aut & to_revoke & to_authorize & -> & _).
    destruct add, rev, aut; simpl; Forall_split;
      intros p Hp; apply list_elem_of_singleton in Hp as ->; done.
Qed.

(** ** Reasoning about runs, one statement at a time *)

(** [wp m w h Q]: the run of [m] in world [w] after the events [h] ends
    with an outcome and events that satisfy [Q]. *)
Definition wp {A} (m : M A) (w : World) (h : list event)
    (Q : outcome A → list event → Prop) : Prop :=
  Q (m w h).1 (m w h).2.

Section wp_rules.
Context {A B : Type}.
Implicit Types (w : World) (h : list event).

Lemma wp_ret (a : A) w h Q : Q (Returned a) [] → wp (ret a) w h Q.
Proof. done. Qed.

Lemma wp_sys_exit code w h (Q : outcome A → list event → Prop) :
  Q (SysExit code) [] → wp (sys_exit code) w h Q.
Proof. done. Qed.

Lemma wp_raise e w h (Q : outcome A → list event → Prop) :
  Q (Raised e) [] → wp (raise e) w h Q.
Proof. done. Qed.

Lemma wp_print msg w h Q : Q (Returned tt) [EvPrint msg] → wp (print msg) w h Q.
Proof. done. Qed.

Lemma wp_call ev (oracle : World → list event → result A) w h Q :
  (∀ a, oracle w h = Ok a → Q (Returned a) [ev]) →
  (∀ e, oracle w h = Raise e → Q (Raised e) [ev]) →
  wp (call ev oracle) w h Q.
Proof.
  intros Hok Hraise. unfold wp, call. destruct (oracle w h); simpl; auto.
Qed.

Lemma wp_bind (m : M A) (f : A → M B) w h Q :
  wp m w h (λ o e1,
    match o with
    | Returned a => wp (f a) w (h ++ e1) (λ o2 e2, Q o2 (e1 ++ e2))
    | SysExit code => Q (SysExit code) e1
    | Raised e => Q (Raised e) e1
    end) →
  wp (bind m f) w h Q.
Proof.
  unfold wp, bind. destruct (m w h) as [[a|code|e] e1]; simpl; [|done..].
  by destruct (f a w (h ++ e1)).
Qed.

Lemma wp_try_except (body : M A) handler w h Q :
  wp body w h (λ o e1,
    match o with
    | Raised e =>
        match handler e with
        | Some k => wp k w (h ++ e1) (λ o2 e2, Q o2 (e1 ++ e2))
        | None => Q (Raised e) e1
        end
    | _ => Q o e1
    end) →
  wp (try_except body handler) w h Q.
Proof.
  unfold wp, try_except. destruct (body w h) as [[a|code|e] e1]; simpl; [done..|].
  destruct (handler e) as [k|]; [|done]. by destruct (k w (h ++ e1)).
Qed.

Lemma wp_mono (m : M A) w h (Q1 Q2 : outcome A → list event → Prop) :
  wp m w h Q1 → (∀ o e, Q1 o e → Q2 o e) → wp m w h Q2.
Proof. unfold wp. auto. Qed.
End wp_rules.

(** One step of a run: the rule of the statement at the head. *)
Ltac wp_head :=
  lazymatch goal with
  | |- wp (bind _ _) _ _ _ => apply wp_bind
  | |- wp (try_except _ _) _ _ _ => apply wp_try_except
  | |- wp (print _) _ _ _ => apply wp_print
  | |- wp (ret _) _ _ _ => apply wp_ret
  | |- wp (sys_exit _) _ _ _ => apply wp_sys_exit
  | |- wp (raise _) _ _ _ => apply wp_raise
  | |- wp (call _ _) _ _ _ => apply wp_call; intros ? ?
  | |- wp (describe _) _ _ _ => unfold describe
  | |- wp (authorize _ _) _ _ _ => unfold authorize
  | |- wp (revoke _ _) _ _ _ => unfold revoke
  | |- wp (subprocess_check_call _) _ _ _ => unfold subprocess_check_call
  | |- wp (save_yaml_config _) _ _ _ => unfold save_yaml_config
  | |- wp (lift ?r) _ _ _ => destruct r eqn:?; unfold lift
  | |- wp (if ?b then _ else _) _ _ _ => destruct b eqn:?
  | |- wp (match ?x with _ => _ end) _ _ _ => destruct x eqn:?
  | |- match (match ?x with _ => _ end) with _ => _ end => destruct x eqn:?
  end; cbv beta iota.

Ltac wp_run := repeat wp_head.

(** ** The events of each function *)

Definition update_event (ev : event) : Prop :=
  match ev with
  | EvDescribe (GroupIds _) | EvAuthorize _ _ | EvRevoke _ _ => True
  | EvPrint (MsgAddingSsh | MsgRevoking _ | MsgAuthorizing _ | MsgErrUpdating _) => True
  | _ => False
  end.

Definition lookup_event (ev : event) : Prop :=
  match ev with
  | EvDescribe (Filters _) => True
  | EvPrint (MsgNoNamedGroup | MsgFoundSshGroup _ | MsgNoTargetGroup | MsgNoCredentials
            | MsgRunAwsConfigure | MsgErrFindingGroup _) => True
  | _ => False
  end.

Definition git_event (ev : event) : Prop :=
  match ev with
  | EvCheckOutput _ | EvCheckCall _ => True
  | EvPrint (MsgNoChanges | MsgCommitting | MsgGitFailed _) => True
  | _ => False
  end.

Ltac Forall_events :=
  cbv beta iota; intros;
  repeat first [apply Forall_nil_2 | apply Forall_cons_2 | apply Forall_app_2];
  try exact I; try done.

Lemma update_security_group_events sg_id allowed_cidrs w h :
  Forall update_event (update_security_group sg_id allowed_cidrs w h).2.
Proof.
  change (wp (update_security_group sg_id allowed_cidrs) w h (λ _ e, Forall update_event e)).
  unfold update_security_group. wp_run; Forall_events.
Qed.

Lemma get_security_group_id_events w h :
  Forall lookup_event (get_security_group_id w h).2.
Proof.
  change (wp get_security_group_id w h (λ _ e, Forall lookup_event e)).
  unfold get_security_group_id. wp_run; Forall_events.
Qed.

Lemma git_commit_and_push_events w h :
  Forall git_event (git_commit_and_push w h).2.
Proof.
  change (wp git_commit_and_push w h (λ _ e, Forall git_event e)).
  unfold git_commit_and_push. wp_run; Forall_events.
Qed.

(** ** git failures *)

(** Every git command either succeeds or ends with a non-zero status
    ([subprocess.CalledProcessError]). *)
Definition git_fails_softly (w : World) : Prop :=
  (∀ args h e, check_output w args h = Raise e → exn_cls e = CalledProcessError) ∧
  (∀ args h e, check_call w args h = Raise e → exn_cls e = CalledProcessError).

(** The last four lines of a successful run. *)
Definition SUCCESS_LINES : list event :=
  [EvPrint MsgBanner; EvPrint MsgCompleted; EvPrint MsgTestUrl; EvPrint MsgBanner].

Lemma git_commit_and_push_returns w h :
  git_fails_softly w → (git_commit_and_push w h).1 = Returned tt.
Proof.
  intros [Hout Hcall].
  change (wp git_commit_and_push w h (λ o _, o = Returned tt)).
  unfold git_commit_and_push. wp_run; try done;
    match goal with
    | H : check_output _ _ _ = Raise ?e |- _ => apply Hout in H; congruence
    | H : check_call _ _ _ = Raise ?e |- _ => apply Hcall in H; congruence
    | a : unit |- _ => by destruct a
    end.
Qed.

(** Where in a list of events a given call can stand. *)
Ltac split_events :=
  repeat match goal with
         | H : _ = ?pre ++ _ :: _ |- _ =>
             is_var pre; destruct pre as [|? pre]; simplify_eq/=
         end.

(** The exception with which the world answers a git command after the
    events [h], if it answers with one. *)
Definition git_response (w : World) (h : list event) (ev : event) : option exn :=
  match ev with
  | EvCheckOutput args =>
      match check_output w args h with
      | Raise e => Some e
      | Ok _ => None
      end
  | EvCheckCall args =>
      match check_call w args h with
      | Raise e => Some e
      | Ok _ => None
      end
  | _ => None
  end.

(** A git command that fails ends [git_commit_and_push]: logged and
    swallowed when it is a [CalledProcessError], raised further when it
    is not. *)
Lemma git_commit_and_push_failure w h pre cmd e rest :
  (git_commit_and_push w h).2 = pre ++ cmd :: rest →
  git_response w (h ++ pre) cmd = Some e →
  git_commit_and_push w h
  = if bool_decide (exn_cls e = CalledProcessError)
    then (Returned tt, pre ++ [cmd; EvPrint (MsgGitFailed e)])
    else (Raised e, pre ++ [cmd]).
Proof.
  rewrite (surjective_pairing (git_commit_and_push w h)) at 2.
  revert pre cmd e rest.
  change (wp git_commit_and_push w h (λ o evs, ∀ pre cmd e rest,
            evs = pre ++ cmd :: rest →
            git_response w (h ++ pre) cmd = Some e →
            (o, evs) = if bool_decide (exn_cls e = CalledProcessError)
                       then (Returned tt, pre ++ [cmd; EvPrint (MsgGitFailed e)])
                       else (Raised e, pre ++ [cmd]))).
  unfold git_commit_and_push. wp_run; intros pre cmd e' rest Hsplit Hraise.
  all: rewrite <- ?app_assoc in *; simpl in *.
  all: split_events; simpl in *; rewrite ?app_nil_r in *.
  all: repeat match goal with
              | H : check_output _ _ _ = _,
                Hr : match check_output _ _ _ with _ => _ end = _ |- _ =>
                  rewrite H in Hr
              | H : check_call _ _ _ = _,
                Hr : match check_call _ _ _ with _ => _ end = _ |- _ =>
                  rewrite H in Hr
              end; simplify_eq.
  all: first [ by rewrite bool_decide_eq_true_2 by done
             | by rewrite bool_decide_eq_false_2 by congruence ].
Qed.

(** [git_commit_and_push] returns, unless its last command raised an
    exception that is not a [CalledProcessError]. *)
Lemma git_commit_and_push_ends w h :
  (git_commit_and_push w h).1 = Returned tt ∨
  ∃ e pre cmd,
    (git_commit_and_push w h).1 = Raised e ∧
    (git_commit_and_push w h).2 = pre ++ [cmd] ∧
    git_response w (h ++ pre) cmd = Some e ∧
    exn_cls e ≠ CalledProcessError.
Proof.
  change (wp git_commit_and_push w h (λ o evs,
            o = Returned tt ∨
            ∃ e pre cmd,
              o = Raised e ∧ evs = pre ++ [cmd] ∧
              git_response w (h ++ pre) cmd = Some e ∧
              exn_cls e ≠ CalledProcessError)).
  unfold git_commit_and_push. wp_run.
  all: try (left; by repeat match goal with u : unit |- _ => destruct u end).
  all: right.
  all: rewrite <- ?app_assoc in *; simpl in *.
  all: match goal with
       | H : _ = Raise ?e |- _ => exists e
       end.
  all: match goal with
       | |- ∃ pre cmd, _ ∧ ?evs = _ ∧ _ =>
           exists (removelast evs), (List.last evs (EvPrint MsgBanner))
       end; simpl.
  all: split_and!; [reflexivity|reflexivity| |congruence].
  all: rewrite ?app_nil_r.
  all: match goal with
       | H : _ = Raise _ |- _ => by rewrite H
       end.
Qed.

(** ** The order of the calls *)

(** The place of an event in the order in which the script runs: the
    two endpoints, the session, the client, the two group lookups, the
    read of the group, the SSH add, the HTTP revoke, the HTTP authorize,
    the report that the group is synced, the three accesses to the YAML
    file, the report that it is updated, the five git commands and the
    closing report.  The other printed lines have no place. *)
Definition stage (ev : event) : option nat :=
  match ev with
  | EvGet url => Some (if bool_decide (url = CHECKIP_URL) then 1 else 2)%nat
  | EvSession None => Some 3%nat
  | EvSession (Some _) => Some 4%nat
  | EvClient _ => Some 5%nat
  | EvDescribe (Filters fs) =>
      Some (if bool_decide (Filters fs = NAME_FILTERS) then 6 else 7)%nat
  | EvDescribe (GroupIds _) => Some 8%nat
  | EvAuthorize _ perms => Some (if forallb (on_port SSH_PORT) perms then 9 else 11)%nat
  | EvRevoke _ _ => Some 10%nat
  | EvPrint MsgSynced => Some 12%nat
  | EvExists _ => Some 13%nat
  | EvLoad _ => Some 14%nat
  | EvDump _ _ => Some 15%nat
  | EvPrint MsgUpdatedYaml => Some 16%nat
  | EvCheckOutput _ => Some 17%nat
  | EvCheckCall args =>
      Some (if bool_decide (args = GIT_PULL) then 18
            else if bool_decide (args = GIT_ADD) then 19
            else if bool_decide (args = GIT_COMMIT) then 20
            else 21)%nat
  | EvPrint MsgCompleted => Some 22%nat
  | EvPrint _ => None
  end.

Definition stages (evs : list event) : list nat := omap stage evs.

(** The stages of [evs] go strictly up and lie in [lo, hi). *)
Definition in_order (lo hi : nat) (evs : list event) : Prop :=
  StronglySorted lt (stages evs) ∧ Forall (λ p, lo ≤ p < hi)%nat (stages evs).

Lemma in_order_nil lo hi : in_order lo hi [].
Proof. split; constructor. Qed.

Lemma in_order_silent lo hi ev evs :
  stage ev = None → in_order lo hi evs → in_order lo hi (ev :: evs).
Proof. intros Hs [? ?]. unfold in_order, stages. simpl. by rewrite Hs. Qed.

Lemma in_order_cons lo hi ev evs p :
  stage ev = Some p → (lo ≤ p < hi)%nat → in_order (S p) hi evs →
  in_order lo hi (ev :: evs).
Proof.
  intros Hs Hp [Hsorted Hrange]. unfold in_order, stages. simpl. rewrite Hs. split.
  - constructor; [done|]. eapply Forall_impl; [exact Hrange|]. simpl. lia.
  - constructor; [done|]. eapply Forall_impl; [exact Hrange|]. simpl. lia.
Qed.

Lemma in_order_weaken lo hi lo' hi' evs :
  in_order lo hi evs → (lo' ≤ lo)%nat → (hi ≤ hi')%nat → in_order lo' hi' evs.
Proof.
  intros [? Hrange] ? ?. split; [done|].
  eapply Forall_impl; [exact Hrange|]. simpl. lia.
Qed.

Lemma in_order_app lo mid hi evs1 evs2 :
  in_order lo mid evs1 → in_order mid hi evs2 → (lo ≤ mid)%nat → (mid ≤ hi)%nat →
  in_order lo hi (evs1 ++ evs2).
Proof.
  intros [Hs1 Hr1] [Hs2 Hr2] ? ?. unfold in_order, stages. rewrite omap_app. split.
  - apply StronglySorted_app_2; [|done..].
    intros x1 x2 H1 H2. rewrite Forall_forall in Hr1, Hr2.
    specialize (Hr1 _ H1). specialize (Hr2 _ H2). simpl in *. lia.
  - apply Forall_app_2; (eapply Forall_impl; [eassumption|]); simpl; lia.
Qed.

(** In a list whose stages go up, an event of a lower stage stands
    before an event of a higher one. *)
Lemma stages_precede evs i j e1 e2 a b :
  StronglySorted lt (stages evs) →
  evs !! i = Some e1 → evs !! j = Some e2 →
  stage e1 = Some a → stage e2 = Some b →
  (a < b)%nat → (i < j)%nat.
Proof.
  revert i j. induction evs as [|ev evs IH]; intros i j Hsorted Hi Hj Ha Hb Hlt;
    [done|].
  assert (Htail : StronglySorted lt (stages evs)).
  { unfold stages in *. simpl in Hsorted. destruct (stage ev); [|done].
    by apply StronglySorted_cons in Hsorted as [_ ?]. }
  destruct i as [|i], j as [|j]; simpl in *.
  - simplify_eq. lia.
  - lia.
  - exfalso. simplify_eq. unfold stages in Hsorted. simpl in Hsorted. rewrite Hb in Hsorted.
    apply StronglySorted_cons in Hsorted as [Hall _].
    rewrite Forall_forall in Hall.
    assert (a ∈ omap stage evs) as Hin.
    { apply list_elem_of_omap. exists e1. split; [|done]. by eapply list_elem_of_lookup_2. }
    specialize (Hall _ Hin). lia.
  - apply -> Nat.succ_lt_mono. by eapply IH.
Qed.

(** The stages of a list of events, piece by piece. *)
Ltac in_order_step :=
  lazymatch goal with
  | |- in_order _ _ [] => apply in_order_nil
  | |- in_order _ _ ([] ++ ?l) => change ([] ++ l) with l
  | |- in_order _ _ ((?l1 ++ ?l2) ++ ?l3) => rewrite <- (app_assoc l1 l2 l3)
  | |- in_order _ _ ((?x :: ?l1) ++ ?l2) => change ((x :: l1) ++ l2) with (x :: (l1 ++ l2))
  | |- in_order ?lo ?hi (?ev :: ?evs) =>
      let s := eval lazy in (stage ev) in
      lazymatch s with
      | Some ?p => apply (in_order_cons lo hi ev evs p); [reflexivity | lia | ]
      | None => apply (in_order_silent lo hi ev evs); [reflexivity | ]
      end
  | H : in_order ?a ?b ?e |- in_order ?lo ?hi (?e ++ _) =>
      apply (in_order_app lo b hi);
      [apply (in_order_weaken a b); [exact H | lia | lia] | | lia | lia]
  | H : in_order ?a ?b ?e |- in_order ?lo ?hi ?e =>
      apply (in_order_weaken a b); [exact H | lia | lia]
  end.

Ltac solve_in_order := cbv beta iota; intros; repeat in_order_step.

Lemma update_security_group_in_order sg_id allowed_cidrs w h :
  in_order 8 12 (update_security_group sg_id allowed_cidrs w h).2.
Proof.
  change (wp (update_security_group sg_id allowed_cidrs) w h (λ _ e, in_order 8 12 e)).
  unfold update_security_group. wp_run; solve_in_order.
Qed.

Lemma get_security_group_id_in_order w h :
  in_order 6 8 (get_security_group_id w h).2.
Proof.
  change (wp get_security_group_id w h (λ _ e, in_order 6 8 e)).
  unfold get_security_group_id. wp_run; solve_in_order.
Qed.

Lemma git_commit_and_push_in_order w h :
  in_order 17 22 (git_commit_and_push w h).2.
Proof.
  change (wp git_commit_and_push w h (λ _ e, in_order 17 22 e)).
  unfold git_commit_and_push. wp_run; solve_in_order.
Qed.

(** ** Runs of main *)

(** In a run of [main] the three larger functions are taken as a whole,
    with what is known of their events. *)
Ltac wp_main_head :=
  lazymatch goal with
  | |- wp get_current_ip _ _ _ => unfold get_current_ip
  | |- wp get_cloudflare_ips _ _ _ => unfold get_cloudflare_ips
  | |- wp load_yaml_config _ _ _ => unfold load_yaml_config
  | |- wp get_security_group_id ?w ?h _ =>
      apply (wp_mono _ _ _ (λ _ e, Forall lookup_event e ∧ in_order 6 8 e));
      [split; [exact (get_security_group_id_events w h)
              | exact (get_security_group_id_in_order w h)]
      | intros [?|?|?] ? (? & ?)]
  | |- wp (update_security_group ?sg ?cidrs) ?w ?h _ =>
      apply (wp_mono _ _ _ (λ _ e, Forall update_event e
                                   ∧ in_order 8 12 e
                                   ∧ (update_security_group sg cidrs w h).2 = e));
      [split_and!; [exact (update_security_group_events sg cidrs w h)
                   | exact (update_security_group_in_order sg cidrs w h)
                   | done]
      | intros [?|?|?] ? (? & ? & ?)]
  | |- wp git_commit_and_push ?w ?h _ =>
      apply (wp_mono _ _ _ (λ o e, (git_commit_and_push w h).1 = o
                                   ∧ Forall git_event e
                                   ∧ in_order 17 22 e
                                   ∧ (git_commit_and_push w h).2 = e));
      [split_and!;
         [done | apply git_commit_and_push_events
         | apply git_commit_and_push_in_order | done]
      | intros [?|?|?] ? (? & ? & ? & ?)]
  | _ => wp_head
  end; cbv beta iota.

Ltac wp_main := repeat wp_main_head.

(** The places of an event among events of which each piece is known;
    the impossible ones are closed. *)
Ltac event_cases H :=
  lazymatch type of H with
  | _ ∈ [] => by apply elem_of_nil in H
  | _ ∈ _ :: _ =>
      apply elem_of_cons in H as [H|H]; [try discriminate | event_cases H]
  | _ ∈ _ ++ _ =>
      apply elem_of_app in H as [H|H]; [event_cases H | event_cases H]
  | _ ∈ ?e =>
      try match goal with
          | HF : Forall _ e |- _ =>
              exfalso; exact (proj1 (Forall_forall _ _) HF _ H)
          end
  end.

(** [ev] is not among such events. *)
Ltac absent_event H := exfalso; event_cases H.

(** C9, as the code has it.  In a run of [main] that got as far as
    printing that the YAML file is updated, the git step follows at
    once.  A git command that ends with a non-zero status
    ([CalledProcessError]) is followed by the line that logs its error
    and by nothing else of [git_commit_and_push], which returns; a git
    command that raises any other exception ends [git_commit_and_push]
    with that exception.  When the git step returns, [main] returns
    (exit status 0) after the four closing lines, "Sync completed
    successfully!" among them; when it raises, the exception ends
    [main] right there, with exit status 1 and without that line.  When
    every failure of a git command is a non-zero status, the git step
    returns. *)
Theorem git_failure_is_not_fatal w :
  EvPrint MsgUpdatedYaml ∈ (main w []).2 →
  ∃ h,
    let git := git_commit_and_push w h in
    last h = Some (EvPrint MsgUpdatedYaml) ∧
    (∀ pre cmd e rest,
       git.2 = pre ++ cmd :: rest →
       git_response w (h ++ pre) cmd = Some e →
       git = if bool_decide (exn_cls e = CalledProcessError)
             then (Returned tt, pre ++ [cmd; EvPrint (MsgGitFailed e)])
             else (Raised e, pre ++ [cmd])) ∧
    (git.1 = Returned tt ∨
     ∃ e pre cmd,
       git.1 = Raised e ∧ git.2 = pre ++ [cmd] ∧
       git_response w (h ++ pre) cmd = Some e ∧
       exn_cls e ≠ CalledProcessError) ∧
    (git.1 = Returned tt →
       (main w []).1 = Returned tt ∧
       exit_status (main w []).1 = 0 ∧
       (main w []).2 = h ++ git.2 ++ SUCCESS_LINES) ∧
    (∀ e, git.1 = Raised e →
       (main w []).1 = Raised e ∧
       exit_status (main w []).1 = 1 ∧
       (main w []).2 = h ++ git.2 ∧
       EvPrint MsgCompleted ∉ (main w []).2) ∧
    (git_fails_softly w → git.1 = Returned tt).
Proof.
  change (wp main w [] (λ o evs,
    EvPrint MsgUpdatedYaml ∈ evs →
    ∃ h,
      let git := git_commit_and_push w h in
      last h = Some (EvPrint MsgUpdatedYaml) ∧
      (∀ pre cmd e rest,
         git.2 = pre ++ cmd :: rest →
         git_response w (h ++ pre) cmd = Some e →
         git = if bool_decide (exn_cls e = CalledProcessError)
               then (Returned tt, pre ++ [cmd; EvPrint (MsgGitFailed e)])
               else (Raised e, pre ++ [cmd])) ∧
      (git.1 = Returned tt ∨
       ∃ e pre cmd,
         git.1 = Raised e ∧ git.2 = pre ++ [cmd] ∧
         git_response w (h ++ pre) cmd = Some e ∧
         exn_cls e ≠ CalledProcessError) ∧
      (git.1 = Returned tt →
         o = Returned tt ∧ exit_status o = 0 ∧ evs = h ++ git.2 ++ SUCCESS_LINES) ∧
      (∀ e, git.1 = Raised e →
         o = Raised e ∧ exit_status o = 1 ∧ evs = h ++ git.2 ∧
         EvPrint MsgCompleted ∉ evs) ∧
      (git_fails_softly w → git.1 = Returned tt))).
  unfold main. wp_main; intros Hin; try (absent_event Hin; fail).
  all: match goal with
       | H : (git_commit_and_push _ ?h).2 = _ |- _ => exists h
       end; cbv zeta.
  all: split; [apply last_snoc|].
  all: split; [apply git_commit_and_push_failure|].
  all: split; [apply git_commit_and_push_ends|].
  all: split; [|split; [|apply git_commit_and_push_returns]].
  all: intros;
    match goal with
    | Hg : (git_commit_and_push _ _).1 = _, Hg' : (git_commit_and_push _ _).1 = _ |- _ =>
        rewrite Hg in Hg'; simplify_eq
    end.
  all: split_and!; try done.
  all: try (intros Hc; absent_event Hc; fail).
  all: try match goal with
           | He : (git_commit_and_push _ _).2 = _ |- _ => rewrite He
           end; rewrite <- ?app_assoc; simpl; reflexivity.
Qed.

(** A world like [w] whose [subprocess.check_call] is [f]. *)
Definition with_check_call (w : World)
    (f : list string → list event → result unit) : World :=
  {| requests_get := requests_get w;
     boto3_session := boto3_session w;
     session_client := session_client w;
     describe_security_groups := describe_security_groups w;
     authorize_security_group_ingress := authorize_security_group_ingress w;
     revoke_security_group_ingress := revoke_security_group_ingress w;
     path_exists := path_exists w;
     yaml_safe_load := yaml_safe_load w;
     yaml_dump := yaml_dump w;
     check_output := check_output w;
     check_call := f |}.

Definition PUSH_REJECTED : exn := Exn CalledProcessError "git push: exit status 1".

(** Everything succeeds except [git push]. *)
Definition rejected_push_world : World :=
  with_check_call (calm_world [mkSecurityGroup "sg-1" []] sample_config)
    (λ args _, if bool_decide (args = GIT_PUSH) then Raise PUSH_REJECTED else Ok tt).

Ltac compute_elem_of :=
  apply list_elem_of_In; vm_compute; repeat first [left; reflexivity | right].

Lemma git_failure_is_not_fatal_example :
  let r := main rejected_push_world [] in
  r.1 = Returned tt ∧
  EvPrint (MsgGitFailed PUSH_REJECTED) ∈ r.2 ∧
  SUCCESS_LINES `suffix_of` r.2.
Proof.
  intros r.
  assert (Hsoft : git_fails_softly rejected_push_world).
  { split; intros args h e; simpl; [discriminate|].
    case_bool_decide; [by intros [= <-]|discriminate]. }
  assert (Hupdated : EvPrint MsgUpdatedYaml ∈ (main rejected_push_world []).2)
    by compute_elem_of.
  destruct (git_failure_is_not_fatal rejected_push_world Hupdated)
    as (h & _ & _ & _ & Hreturns & _ & Hgit).
  destruct (Hreturns (Hgit Hsoft)) as (Hret & _ & Hevents).
  split_and!; [exact Hret | compute_elem_of | ].
  unfold r. rewrite Hevents. apply suffix_app_r, suffix_app_r. done.
Defined.

Definition GIT_MISSING : exn :=
  Exn OtherException "[Errno 2] No such file or directory: 'git'".

Definition OUT_OF_MEMORY : exn := Exn OtherException "[Errno 12] Cannot allocate memory".

(** Everything succeeds, but no [git] program is installed: every git
    command raises [FileNotFoundError]. *)
Definition git_missing_world : World :=
  let w := calm_world [mkSecurityGroup "sg-1" []] sample_config in
  {| requests_get := requests_get w;
     boto3_session := boto3_session w;
     session_client := session_client w;
     describe_security_groups := describe_security_groups w;
     authorize_security_group_ingress := authorize_security_group_ingress w;
     revoke_security_group_ingress := revoke_security_group_ingress w;
     path_exists := path_exists w;
     yaml_safe_load := yaml_safe_load w;
     yaml_dump := yaml_dump w;
     check_output := λ _ _, Raise GIT_MISSING;
     check_call := λ _ _, Raise GIT_MISSING |}.

(** Everything succeeds except [git push], which cannot be started
    ([OSError]). *)
Definition failed_push_world : World :=
  with_check_call (calm_world [mkSecurityGroup "sg-1" []] sample_config)
    (λ args _, if bool_decide (args = GIT_PUSH) then Raise OUT_OF_MEMORY else Ok tt).

(** C9 as stated: a run that has synced the group and written the YAML
    file returns and prints the closing lines, whatever way a git
    command fails. *)
Definition stated_git_tolerance (w : World) : Prop :=
  EvPrint MsgSynced ∈ (main w []).2 →
  EvPrint MsgUpdatedYaml ∈ (main w []).2 →
  (main w []).1 = Returned tt ∧ SUCCESS_LINES `suffix_of` (main w []).2.

(** C9, as stated, fails.  Without a [git] program [git status] raises
    [FileNotFoundError], and a [git push] that cannot be started raises
    [OSError]: neither is a [CalledProcessError], and the run ends with
    the exception and exit status 1 after the YAML file is written. *)
Lemma git_failure_can_be_fatal :
  (¬ stated_git_tolerance git_missing_world ∧
   (main git_missing_world []).1 = Raised GIT_MISSING ∧
   exit_status (main git_missing_world []).1 = 1 ∧
   last (main git_missing_world []).2 = Some (EvCheckOutput GIT_STATUS)) ∧
  (¬ stated_git_tolerance failed_push_world ∧
   (main failed_push_world []).1 = Raised OUT_OF_MEMORY ∧
   exit_status (main failed_push_world []).1 = 1 ∧
   last (main failed_push_world []).2 = Some (EvCheckCall GIT_PUSH)).
Proof.
  split; (split; [|split_and!; vm_compute; reflexivity]).
  - intros Hstated. destruct Hstated as [Hret _]; [compute_elem_of..|].
    vm_compute in Hret. discriminate.
  - intros Hstated. destruct Hstated as [Hret _]; [compute_elem_of..|].
    vm_compute in Hret. discriminate.
Qed.

(** ** The desired state *)

(** [config['rules']['http']] of a document, when it has one. *)
Definition rules_http (config : document) : option yaml :=
  match getitem (anchors config) (root config) "rules" with
  | Ok rules =>
      match getitem (anchors config) rules "http" with
      | Ok cidrs => Some cidrs
      | Raise _ => None
      end
  | Raise _ => None
  end.

(** The list comprehension of [get_cloudflare_ips] on a response body. *)
Definition published_ranges (text : string) : list string :=
  strip <$> filter (λ ip, strip ip ≠ "") (splitlines text).

Lemma dict_get_set_eq key value d : dict_get key (dict_set key value d) = Some value.
Proof.
  unfold dict_get. induction d as [|[k v] d IH]; simpl.
  - by rewrite bool_decide_eq_true_2.
  - case_bool_decide as Hk; simpl.
    + by rewrite bool_decide_eq_true_2.
    + by rewrite bool_decide_eq_false_2.
Qed.

Lemma dict_get_set_ne key key' value d :
  key ≠ key' → dict_get key (dict_set key' value d) = dict_get key d.
Proof.
  intros Hne. unfold dict_get. induction d as [|[k v] d IH]; simpl.
  - by rewrite bool_decide_eq_false_2.
  - case_bool_decide as Hk; simpl.
    + subst k. by rewrite !bool_decide_eq_false_2 by done.
    + by destruct (bool_decide (k = key)).
Qed.

Lemma dict_get_is_Some key d : is_Some (dict_get key d) ↔ key ∈ d.*1.
Proof.
  unfold dict_get. induction d as [|[k v] d IH]; simpl.
  - split; [by intros [? ?]|by intros ?%elem_of_nil].
  - case_bool_decide as Hk; simpl.
    + subst k. split; [intros _; apply list_elem_of_here|by eexists].
    + rewrite IH. split; [apply list_elem_of_further|]. by intros [?|?]%elem_of_cons.
Qed.

Lemma dict_set_id key value d :
  dict_get key d = Some value → dict_set key value d = d.
Proof.
  unfold dict_get. induction d as [|[k v] d IH]; simpl; [done|].
  case_bool_decide as Hk; simpl.
  - intros [= <-]. by subst k.
  - intros Hd. by rewrite IH.
Qed.

Lemma dict_set_set key value value' d :
  dict_set key value' (dict_set key value d) = dict_set key value' d.
Proof.
  induction d as [|[k v] d IH]; simpl.
  - by rewrite bool_decide_eq_true_2.
  - case_bool_decide as Hk; simpl.
    + by rewrite bool_decide_eq_true_2.
    + by rewrite bool_decide_eq_false_2, IH.
Qed.

(** The mapping [config['rules']] after lines 243-246. *)
Definition new_rules (target : list string) (rules : list (string * yaml))
  : list (string * yaml) :=
  let rules := dict_set "http" (YSeq (YStr <$> target)) rules in
  if bool_decide ("ssh" ∈ rules.*1) then rules
  else dict_set "ssh" (YSeq [YStr ALL_ADDRESSES]) rules.

(** [config] in which the mapping at [key] has the entries [entries]:
    a shared mapping is changed in the table, one written in place is
    changed in the mapping of [config], which is itself shared or the
    top-level value. *)
Definition with_mapping (config : document) (key : string)
    (entries : list (string * yaml)) : document :=
  match getitem (anchors config) (root config) key with
  | Ok (YAlias a) => mkDocument (<[a := OMap entries]> (anchors config)) (root config)
  | _ =>
      match root config with
      | YAlias b =>
          match anchors config !! b with
          | Some (OMap d) =>
              mkDocument (<[b := OMap (dict_set key (YMap entries) d)]> (anchors config))
                         (root config)
          | _ => config
          end
      | YMap d => mkDocument (anchors config) (YMap (dict_set key (YMap entries) d))
      | _ => config
      end
  end.

Lemma setitem_in_Ok config key1 key2 x config' :
  setitem_in config key1 key2 x = Ok config' ↔
  ∃ d inner entries,
    deref (anchors config) (root config) = YMap d ∧
    dict_get key1 d = Some inner ∧
    deref (anchors config) inner = YMap entries ∧
    config' = with_mapping config key1 (dict_set key2 x entries).
Proof.
  destruct config as [table r]. unfold setitem_in, with_mapping, getitem. simpl.
  split.
  - destruct (deref table r) as [| | | | |d|] eqn:Hr; try done.
    destruct (dict_get key1 d) as [inner|] eqn:Hinner; [|done]. simpl.
    intros Hset. exists d, inner.
    destruct inner as [| | | | |entries|a]; try done; simpl in *.
    + exists entries. split_and!; [done..|].
      destruct r as [| | | | |d'|b]; simplify_eq/=; [done|].
      destruct (table !! b) as [[|d']|] eqn:Hb; simplify_eq/=. done.
    + destruct (table !! a) as [[|entries]|] eqn:Ha; simplify_eq/=.
      by exists entries.
  - intros (d & inner & entries & Hr & Hinner & Hentries & ->).
    rewrite Hr, Hinner. simpl.
    destruct inner as [| | | | |entries'|a]; simplify_eq/=.
    + destruct r as [| | | | |d'|b]; simplify_eq/=; [done|].
      destruct (table !! b) as [[|d']|] eqn:Hb; simplify_eq/=. done.
    + destruct (table !! a) as [[|entries']|] eqn:Ha; simplify_eq/=. done.
Qed.

(** After [config[key][key2] = x] the mapping is still at [key], and
    changing it again changes the same object. *)
Lemma with_mapping_again config key key2 x d inner entries :
  key ≠ key2 →
  deref (anchors config) (root config) = YMap d →
  dict_get key d = Some inner →
  deref (anchors config) inner = YMap entries →
  let config1 := with_mapping config key (dict_set key2 x entries) in
  (∃ d1 inner1,
     deref (anchors config1) (root config1) = YMap d1 ∧
     dict_get key d1 = Some inner1 ∧
     deref (anchors config1) inner1 = YMap (dict_set key2 x entries)) ∧
  ∀ entries', with_mapping config1 key entries' = with_mapping config key entries'.
Proof.
  destruct config as [table r]. unfold with_mapping, getitem. simpl.
  intros Hkey Hr Hinner Hentries. rewrite Hr, Hinner.
  destruct inner as [| | | | |entries0|a]; simplify_eq/=.
  - destruct r as [| | | | |d'|b]; simplify_eq/=.
    + rewrite dict_get_set_eq. split.
      * eexists _, _. split_and!; [done|apply dict_get_set_eq|done].
      * intros entries'. by rewrite dict_set_set.
    + destruct (table !! b) as [[|d']|] eqn:Hb; simplify_eq/=.
      rewrite lookup_insert_eq, dict_get_set_eq. split.
      * eexists _, _. split_and!; [done|apply dict_get_set_eq|done].
      * intros entries'. by rewrite insert_insert_eq, dict_set_set.
  - destruct (table !! a) as [[|entries0]|] eqn:Ha; simplify_eq/=.
    destruct r as [| | | | |d'|b]; simplify_eq/=.
    + rewrite Hinner. split.
      * exists d, (YAlias a). simpl. by rewrite lookup_insert_eq.
      * intros entries'. by rewrite insert_insert_eq.
    + destruct (decide (a = b)) as [->|Hab].
      * rewrite lookup_insert_eq. rewrite Ha in Hr. simplify_eq/=.
        rewrite dict_get_set_ne, Hinner by done. split.
        -- eexists _, (YAlias b). split_and!; [done|by rewrite dict_get_set_ne|].
           simpl. by rewrite lookup_insert_eq.
        -- intros entries'. by rewrite insert_insert_eq.
      * rewrite lookup_insert_ne by done.
        destruct (table !! b) as [[|d']|] eqn:Hb; simplify_eq/=.
        rewrite Hinner. split.
        -- exists d, (YAlias a). simpl. by rewrite lookup_insert_eq.
        -- intros entries'. by rewrite insert_insert_eq.
Qed.

(** When [update_rules] succeeds, and what it leaves. *)
Lemma update_rules_Ok config target config' :
  update_rules config target = Ok config' ↔
  ∃ d inner rules,
    deref (anchors config) (root config) = YMap d ∧
    dict_get "rules" d = Some inner ∧
    deref (anchors config) inner = YMap rules ∧
    config' = with_mapping config "rules" (new_rules target rules).
Proof.
  unfold update_rules. split.
  - destruct (setitem_in config "rules" "http" _) as [config1|] eqn:H1; [|done]. simpl.
    apply setitem_in_Ok in H1 as (d & inner & rules & Hr & Hinner & Hrules & ->).
    destruct (with_mapping_again config "rules" "http" (YSeq (YStr <$> target))
                d inner rules) as [(d1 & inner1 & Hr1 & Hinner1 & Hrules1) Hagain];
      [done..|].
    unfold getitem at 1. rewrite Hr1, Hinner1. simpl.
    unfold contains. rewrite Hrules1. simpl.
    intros Hssh. exists d, inner, rules. split_and!; [done..|].
    unfold new_rules. simpl. case_bool_decide; simpl in Hssh.
    + by injection Hssh as <-.
    + apply setitem_in_Ok in Hssh as (d2 & inner2 & rules2 & Hr2 & Hinner2 & Hrules2 & ->).
      rewrite Hagain. rewrite Hr1 in Hr2. simplify_eq. by rewrite Hrules1 in Hrules2; simplify_eq.
  - intros (d & inner & rules & Hr & Hinner & Hrules & ->).
    assert (H1 : setitem_in config "rules" "http" (YSeq (YStr <$> target))
                 = Ok (with_mapping config "rules"
                         (dict_set "http" (YSeq (YStr <$> target)) rules))).
    { apply setitem_in_Ok. by exists d, inner, rules. }
    rewrite H1. simpl.
    destruct (with_mapping_again config "rules" "http" (YSeq (YStr <$> target))
                d inner rules) as [(d1 & inner1 & Hr1 & Hinner1 & Hrules1) Hagain];
      [done..|].
    unfold getitem at 1. rewrite Hr1, Hinner1. simpl.
    unfold contains. rewrite Hrules1. simpl.
    unfold new_rules. simpl. case_bool_decide; simpl; [done|].
    etrans; [|f_equal; apply Hagain].
    apply setitem_in_Ok. by eexists d1, inner1, _.
Qed.

Lemma dict_set_keys_present key value d :
  key ∈ d.*1 → (dict_set key value d).*1 = d.*1.
Proof.
  induction d as [|[k v] d IH]; simpl; [by intros ?%elem_of_nil|].
  intros Hin. case_bool_decide as Hk; simpl; [by subst|].
  f_equal. apply IH. apply elem_of_cons in Hin as [?|?]; [congruence|done].
Qed.

Lemma dict_set_keys key value d : key ∈ (dict_set key value d).*1.
Proof.
  induction d as [|[k v] d IH]; simpl; [left|].
  case_bool_decide; simpl; [left|by right].
Qed.

(** After lines 243-246 the mapping is still at [rules], with the
    entries [new_rules]; changing it again changes the same object. *)
Lemma with_rules_again config target d inner rules :
  deref (anchors config) (root config) = YMap d →
  dict_get "rules" d = Some inner →
  deref (anchors config) inner = YMap rules →
  let config' := with_mapping config "rules" (new_rules target rules) in
  (∃ d' inner',
     deref (anchors config') (root config') = YMap d' ∧
     dict_get "rules" d' = Some inner' ∧
     deref (anchors config') inner' = YMap (new_rules target rules)) ∧
  ∀ entries', with_mapping config' "rules" entries' = with_mapping config "rules" entries'.
Proof.
  intros Hr Hinner Hrules. unfold new_rules. simpl.
  destruct (with_mapping_again config "rules" "http" (YSeq (YStr <$> target))
              d inner rules) as [(d1 & inner1 & Hr1 & Hinner1 & Hrules1) Hagain];
    [done..|].
  case_bool_decide; [split; [by exists d1, inner1|done]|].
  rewrite <- Hagain.
  destruct (with_mapping_again _ "rules" "ssh" (YSeq [YStr ALL_ADDRESSES])
              d1 inner1 _ ltac:(done) Hr1 Hinner1 Hrules1) as [Hthere Hagain'].
  split; [done|]. intros entries'. by rewrite Hagain', !Hagain.
Qed.

Lemma new_rules_http target rules :
  dict_get "http" (new_rules target rules) = Some (YSeq (YStr <$> target)).
Proof.
  unfold new_rules. simpl.
  case_bool_decide; [|rewrite dict_get_set_ne by done]; apply dict_get_set_eq.
Qed.

Lemma new_rules_ssh target rules :
  dict_get "ssh" (new_rules target rules)
  = Some (default (YSeq [YStr ALL_ADDRESSES]) (dict_get "ssh" rules)).
Proof.
  unfold new_rules. simpl. case_bool_decide as Hin.
  - apply dict_get_is_Some in Hin as [v Hv]. rewrite Hv.
    rewrite dict_get_set_ne in Hv by done. by rewrite Hv.
  - rewrite dict_get_set_eq.
    assert (dict_get "ssh" rules = None) as ->; [|done].
    apply eq_None_not_Some. intros Hsome. apply Hin.
    apply dict_get_is_Some. by rewrite dict_get_set_ne.
Qed.

Lemma new_rules_other target rules key :
  key ≠ "http" → key ≠ "ssh" →
  dict_get key (new_rules target rules) = dict_get key rules.
Proof.
  intros Hhttp Hssh. unfold new_rules. simpl.
  case_bool_decide; by rewrite !dict_get_set_ne.
Qed.

Lemma new_rules_idempotent target rules :
  new_rules target (new_rules target rules) = new_rules target rules.
Proof.
  unfold new_rules at 1. simpl.
  rewrite (dict_set_id _ _ _ (new_rules_http target rules)).
  rewrite bool_decide_eq_true_2; [done|].
  apply dict_get_is_Some. by rewrite new_rules_ssh.
Qed.

Lemma update_rules_http config target config' :
  update_rules config target = Ok config' →
  rules_http config' = Some (YSeq (YStr <$> target)).
Proof.
  intros (d & inner & rules & Hr & Hinner & Hrules & ->)%update_rules_Ok.
  destruct (with_rules_again config target d inner rules)
    as [(d' & inner' & Hr' & Hinner' & Hrules') _]; [done..|].
  unfold rules_http, getitem. rewrite Hr', Hinner', Hrules'.
  by rewrite new_rules_http.
Qed.

Example target_http_cidrs_example :
  target_http_cidrs "198.51.100.7/32"
    ["173.245.48.0/20"; "103.21.244.0/22"; "173.245.48.0/20"]
  = ["103.21.244.0/22"; "173.245.48.0/20"; "198.51.100.7/32"].
Proof. vm_compute. reflexivity. Qed.

Lemma target_http_cidrs_sorted home_ip cf_ips :
  StronglySorted String.le (target_http_cidrs home_ip cf_ips).
Proof. apply (StronglySorted_merge_sort String.le). Qed.

Lemma target_http_cidrs_NoDup home_ip cf_ips :
  NoDup (target_http_cidrs home_ip cf_ips).
Proof.
  unfold target_http_cidrs, sorted. rewrite merge_sort_Permutation. apply NoDup_elements.
Qed.

Lemma elem_of_target_http_cidrs home_ip cf_ips c :
  c ∈ target_http_cidrs home_ip cf_ips ↔ c = home_ip ∨ c ∈ cf_ips.
Proof.
  unfold target_http_cidrs, sorted.
  rewrite merge_sort_Permutation, elem_of_elements, elem_of_list_to_set.
  apply elem_of_cons.
Qed.

Ltac responses w :=
  match goal with
  | H1 : requests_get w CHECKIP_URL ?h1 = Ok ?text,
    H2 : requests_get w CLOUDFLARE_IPV4_URL ?h2 = Ok ?ranges |- _ =>
      exists text, ranges, h1, h2; split; [exact H1|]; split; [exact H2|]
  end.

(** C7.  The list of line 218 is ascending, has no duplicates and holds
    exactly the home address and the CDN ranges.  In every run of
    [main] that reads the group, the home address is the stripped body
    of the address endpoint followed by "/32", and the run contains the
    run of [update_security_group] on that list; and whenever the run
    writes the YAML file, the document's [rules.http] is that list. *)
Theorem desired_state_is_sorted_union (home_ip : string) (cf_ips : list string)
    (w : World) :
  (StronglySorted String.le (target_http_cidrs home_ip cf_ips) ∧
   NoDup (target_http_cidrs home_ip cf_ips) ∧
   ∀ c, c ∈ target_http_cidrs home_ip cf_ips ↔ c = home_ip ∨ c ∈ cf_ips) ∧
  (∀ g, EvDescribe (GroupIds g) ∈ (main w []).2 →
     ∃ text ranges h1 h2,
       requests_get w CHECKIP_URL h1 = Ok text ∧
       requests_get w CLOUDFLARE_IPV4_URL h2 = Ok ranges ∧
       ∃ sg_id pre post,
         (main w []).2
         = pre ++ (update_security_group sg_id
                     (target_http_cidrs (strip text +:+ "/32") (published_ranges ranges))
                     w pre).2 ++ post) ∧
  (∀ path config, EvDump path config ∈ (main w []).2 →
     ∃ text ranges h1 h2,
       requests_get w CHECKIP_URL h1 = Ok text ∧
       requests_get w CLOUDFLARE_IPV4_URL h2 = Ok ranges ∧
       path = YAML_FILE ∧
       rules_http config
       = Some (YSeq (YStr <$> target_http_cidrs (strip text +:+ "/32")
                                (published_ranges ranges)))).
Proof.
  split_and!.
  - apply target_http_cidrs_sorted.
  - apply target_http_cidrs_NoDup.
  - apply elem_of_target_http_cidrs.
  - change (wp main w [] (λ _ evs, ∀ g, EvDescribe (GroupIds g) ∈ evs →
      ∃ text ranges h1 h2,
        requests_get w CHECKIP_URL h1 = Ok text ∧
        requests_get w CLOUDFLARE_IPV4_URL h2 = Ok ranges ∧
        ∃ sg_id pre post,
          evs = pre ++ (update_security_group sg_id
                          (target_http_cidrs (strip text +:+ "/32") (published_ranges ranges))
                          w pre).2 ++ post)).
    unfold main. wp_main; intros g Hin; event_cases Hin.
    all: responses w.
    all: match goal with
         | Hu : (update_security_group ?sg _ _ ?pre).2 = _ |- _ =>
             exists sg, pre;
             first [ eexists; unfold published_ranges; rewrite Hu;
                     rewrite <- ?app_assoc; simpl; reflexivity
                   | exists []; unfold published_ranges; rewrite Hu;
                     rewrite <- ?app_assoc, ?app_nil_r; simpl; reflexivity ]
         end.
  - change (wp main w [] (λ _ evs, ∀ path config, EvDump path config ∈ evs →
      ∃ text ranges h1 h2,
        requests_get w CHECKIP_URL h1 = Ok text ∧
        requests_get w CLOUDFLARE_IPV4_URL h2 = Ok ranges ∧
        path = YAML_FILE ∧
        rules_http config
        = Some (YSeq (YStr <$> target_http_cidrs (strip text +:+ "/32")
                                 (published_ranges ranges))))).
    unfold main. wp_main; intros path config Hin; event_cases Hin.
    all: simplify_eq.
    all: responses w.
    all: split; [done|].
    all: match goal with
         | Hr : update_rules _ _ = Ok _ |- _ => exact (update_rules_http _ _ _ Hr)
         end.
Qed.

(** ** The order of a run *)

Definition is_config_read (ev : event) : Prop :=
  match ev with
  | EvLoad _ => True
  | _ => False
  end.

Definition is_config_write (ev : event) : Prop :=
  match ev with
  | EvDump _ _ => True
  | _ => False
  end.

(** In [evs] every event with [P] stands before every event with [Q]. *)
Definition stands_before (P Q : event → Prop) (evs : list event) : Prop :=
  ∀ i j e1 e2, evs !! i = Some e1 → evs !! j = Some e2 → P e1 → Q e2 → (i < j)%nat.

(** The steps as the specification numbers them: resolve the desired
    state, read the current state, (compute the diff,) apply the SSH
    mutation, apply the HTTP mutations, persist the config, commit. *)
Definition stated_step (ev : event) : option nat :=
  match ev with
  | EvGet _ => Some 1%nat
  | EvDescribe (GroupIds _) => Some 2%nat
  | EvAuthorize _ perms => Some (if forallb (on_port SSH_PORT) perms then 4 else 5)%nat
  | EvRevoke _ _ => Some 5%nat
  | EvDump _ _ => Some 6%nat
  | EvCheckOutput _ | EvCheckCall _ => Some 7%nat
  | _ => None
  end.

(** The order as the specification states it: the steps in sequence,
    the config store read before the reconciliation is computed (so
    before any mutation) and written only after it succeeded. *)
Definition stated_order (evs : list event) : Prop :=
  StronglySorted le (omap stated_step evs) ∧
  stands_before is_config_read (λ ev, is_mutation ev = true) evs ∧
  (∀ path config, EvDump path config ∈ evs → EvPrint MsgSynced ∈ evs).

(** C8, as stated, fails.  In a first run on a group without rules the
    YAML file is loaded after both calls on the sink. *)
Lemma stated_order_fails :
  ¬ stated_order (main (calm_world [mkSecurityGroup "sg-1" []] sample_config) []).2.
Proof.
  intros (_ & Hread & _).
  assert (Hlt : (19 < 14)%nat); [|lia].
  apply (Hread 19%nat 14%nat (EvLoad YAML_FILE) (EvAuthorize "sg-1" [ssh_permission])).
  - vm_compute. reflexivity.
  - vm_compute. reflexivity.
  - exact I.
  - reflexivity.
Qed.

Ltac present_event :=
  simpl;
  solve [repeat first [ apply list_elem_of_here
                      | apply list_elem_of_further
                      | apply elem_of_app; right ]].

Lemma main_in_order w : in_order 0 23 (main w []).2.
Proof.
  change (wp main w [] (λ _ e, in_order 0 23 e)).
  unfold main. wp_main; solve_in_order.
Qed.

Lemma config_access_after_sync w ev :
  ev ∈ (main w []).2 → is_config_read ev ∨ is_config_write ev →
  EvPrint MsgSynced ∈ (main w []).2.
Proof.
  destruct ev; try (intros _ [[]|[]]; fail); intros Hin _; revert Hin.
  - change (wp main w [] (λ _ evs, EvLoad path ∈ evs → EvPrint MsgSynced ∈ evs)).
    unfold main. wp_main; intros Hin; event_cases Hin; present_event.
  - change (wp main w [] (λ _ evs, EvDump path config ∈ evs → EvPrint MsgSynced ∈ evs)).
    unfold main. wp_main; intros Hin; event_cases Hin; present_event.
Qed.

(** C8, as the code has it.  In every run of [main] the calls happen in
    the order of [stage], each at most once: the two endpoints, the
    session and client, the group lookups, the read of the group, the
    SSH add, the HTTP revoke, the HTTP authorize, then the load of the
    YAML file, its dump, and the git commands.  The YAML file is loaded
    after every call on the sink and before it is written, and it is
    loaded or written only in a run that printed that the group is
    synced. *)
Theorem main_runs_in_order w :
  StronglySorted lt (stages (main w []).2) ∧
  (∀ i j e1 e2 a b,
     (main w []).2 !! i = Some e1 → (main w []).2 !! j = Some e2 →
     stage e1 = Some a → stage e2 = Some b → (a < b)%nat → (i < j)%nat) ∧
  stands_before (λ ev, is_mutation ev = true) is_config_read (main w []).2 ∧
  stands_before is_config_read is_config_write (main w []).2 ∧
  stands_before (eq (EvPrint MsgSynced)) is_config_read (main w []).2 ∧
  (∀ ev, ev ∈ (main w []).2 → is_config_read ev ∨ is_config_write ev →
         EvPrint MsgSynced ∈ (main w []).2).
Proof.
  destruct (main_in_order w) as [Hsorted _].
  split_and!.
  - done.
  - intros i j e1 e2 a b. by apply stages_precede.
  - intros i j e1 e2 Hi Hj H1 H2.
    destruct e2; try done. destruct e1; try done.
    + eapply (stages_precede _ i j); [done..|reflexivity|]. simpl. case_match; lia.
    + eapply (stages_precede _ i j); [done..|reflexivity|]. lia.
  - intros i j e1 e2 Hi Hj H1 H2.
    destruct e1; try done. destruct e2; try done.
    eapply (stages_precede _ i j); [done..|reflexivity|]. lia.
  - intros i j e1 e2 Hi Hj <- H2. destruct e2; try done.
    eapply (stages_precede _ i j); [done..|reflexivity|]. lia.
  - apply config_access_after_sync.
Qed.

(** * Further properties of the script *)

(** ** update_security_group: every run *)

Lemma authorized_on_mutations port evs :
  authorized_on port (mutations evs) = authorized_on port evs.
Proof.
  unfold mutations. induction evs as [|ev evs IH]; [done|].
  rewrite filter_cons. destruct ev; simpl; by rewrite ?IH.
Qed.

(** What the planned calls name on port 80, in terms of the read. *)
Lemma planned_http_addresses w h sg_id allowed_cidrs c :
  ((c ∈ revoked_on HTTP_PORT (mutations (planned w h sg_id allowed_cidrs))) →
   (c ∉ allowed_cidrs) ∧
   (∃ perms, read_permissions w h sg_id = Some perms ∧ lists_cidr HTTP_PORT c perms)) ∧
  ((c ∈ authorized_on HTTP_PORT (mutations (planned w h sg_id allowed_cidrs))) →
   c ∈ allowed_cidrs ∧
   (∃ perms, read_permissions w h sg_id = Some perms ∧ ¬ lists_cidr HTTP_PORT c perms)).
Proof.
  rewrite revoked_on_mutations, authorized_on_mutations. unfold planned.
  destruct (read_permissions w h sg_id) as [perms|];
    [|by split; intros Hin; apply elem_of_empty in Hin].
  unfold http_steps. destruct (http_loop perms ∅) as [cur|e] eqn:Hloop.
  - rewrite revoked_on_steps, authorized_on_steps, cidrs_on_http.
    pose proof (current_http_cidrs_iff _ _ Hloop c) as Hcur. split.
    + intros Hin.
      assert (c ∈ cur ∖ (list_to_set allowed_cidrs : gset string)) as Hd
        by (case_bool_decide; set_solver).
      apply elem_of_difference in Hd as [? Hn]. rewrite elem_of_list_to_set in Hn.
      split; [done|]. exists perms. by rewrite <- Hcur.
    + rewrite elem_of_difference, elem_of_list_to_set. intros [? ?].
      split; [done|]. exists perms. by rewrite <- Hcur.
  - rewrite app_nil_r. unfold ssh_step.
    destruct (ssh_loop perms false); simpl; rewrite ?cidrs_on_ssh_http;
      split; intros Hin; exfalso; revert Hin; clear; set_solver.
Qed.

(** X1.  In every run of [update_security_group], also one that a
    failing call cuts short, an address is revoked on port 80 only if the
    read listed it there and it is not allowed, and is authorized on port
    80 only if it is allowed and the read did not list it there. *)
Theorem only_the_difference_is_touched w h sg_id allowed_cidrs c :
  ((c ∈ revoked_on HTTP_PORT (update_security_group sg_id allowed_cidrs w h).2) →
   (c ∉ allowed_cidrs) ∧
   (∃ perms, read_permissions w h sg_id = Some perms ∧ lists_cidr HTTP_PORT c perms)) ∧
  ((c ∈ authorized_on HTTP_PORT (update_security_group sg_id allowed_cidrs w h).2) →
   c ∈ allowed_cidrs ∧
   (∃ perms, read_permissions w h sg_id = Some perms ∧ ¬ lists_cidr HTTP_PORT c perms)).
Proof.
  destruct (update_security_group_mutations w h sg_id allowed_cidrs) as [k Hk].
  destruct (planned_http_addresses w h sg_id allowed_cidrs c) as [Hrev Haut].
  rewrite Hk, revoked_on_app, authorized_on_app, revoked_on_mutations,
    authorized_on_mutations in *.
  split; intros Hin; [apply Hrev|apply Haut]; set_solver.
Qed.

(** The answer of the sink to a call at the events [h]. *)
Definition sink_response (w : World) (h : list event) (ev : event)
  : option (result unit) :=
  match ev with
  | EvAuthorize sg_id perms => Some (authorize_security_group_ingress w sg_id perms h)
  | EvRevoke sg_id perms => Some (revoke_security_group_ingress w sg_id perms h)
  | _ => None
  end.

(** X2.  A call on the sink that raises ends the run: the error is
    printed, nothing else follows (no later call on the sink is made, no
    earlier one is undone) and the function exits with status 1. *)
Theorem sink_failure_is_fatal w h sg_id allowed_cidrs pre ev post e :
  (update_security_group sg_id allowed_cidrs w h).2 = pre ++ ev :: post →
  sink_response w (h ++ pre) ev = Some (Raise e) →
  (update_security_group sg_id allowed_cidrs w h).1 = SysExit 1 ∧
  post = [EvPrint (MsgErrUpdating e)].
Proof.
  revert pre ev post e.
  change (wp (update_security_group sg_id allowed_cidrs) w h (λ o evs,
            ∀ pre ev post e,
              evs = pre ++ ev :: post →
              sink_response w (h ++ pre) ev = Some (Raise e) →
              o = SysExit 1 ∧ post = [EvPrint (MsgErrUpdating e)])).
  unfold update_security_group. wp_run; intros pre ev post e' Hsplit Hraise;
    rewrite <- ?app_assoc in *; simpl in *; split_events;
    simpl in *; simplify_eq; split; congruence.
Qed.

(** A world like [w] whose sink refuses every revoke. *)
Definition with_revoke_refused (w : World) (e : exn) : World :=
  {| requests_get := requests_get w;
     boto3_session := boto3_session w;
     session_client := session_client w;
     describe_security_groups := describe_security_groups w;
     authorize_security_group_ingress := authorize_security_group_ingress w;
     revoke_security_group_ingress := λ _ _ _, Raise e;
     path_exists := path_exists w;
     yaml_safe_load := yaml_safe_load w;
     yaml_dump := yaml_dump w;
     check_output := check_output w;
     check_call := check_call w |}.

Definition REVOKE_REFUSED : exn := Exn ClientError "InvalidPermission.NotFound".

Lemma sink_failure_is_fatal_example :
  let w := with_revoke_refused
             (calm_world [mkSecurityGroup "sg-1" [tcp_permission 80 ["1.1.1.1/32"]]]
                sample_config) REVOKE_REFUSED in
  let r := update_security_group "sg-1" ["3.3.3.3/32"] w [] in
  r.1 = SysExit 1 ∧ authorized_on HTTP_PORT r.2 = ∅.
Proof.
  intros w r.
  destruct (sink_failure_is_fatal w [] "sg-1" ["3.3.3.3/32"]
              [EvDescribe (GroupIds ["sg-1"]); EvPrint MsgAddingSsh;
               EvAuthorize "sg-1" [ssh_permission]; EvPrint (MsgRevoking 1)]
              (EvRevoke "sg-1" [http_permission {["1.1.1.1/32"]}])
              [EvPrint (MsgErrUpdating REVOKE_REFUSED)] REVOKE_REFUSED)
    as [Hexit _].
  - vm_compute. reflexivity.
  - reflexivity.
  - split; [exact Hexit|]. vm_compute. reflexivity.
Defined.

(** ** update_security_group: malformed answers of the read *)

Lemma http_ranges_loop_Raise ranges cidrs e :
  http_ranges_loop ranges cidrs = Raise e → e = Exn KeyError "'CidrIp'".
Proof.
  revert cidrs. induction ranges as [|r ranges IH]; intros cidrs; simpl; [done|].
  destruct (CidrIp r); [apply IH|congruence].
Qed.

Lemma http_loop_Raise perms cidrs e :
  http_loop perms cidrs = Raise e → e = Exn KeyError "'CidrIp'".
Proof.
  revert cidrs. induction perms as [|perm perms IH]; intros cidrs; simpl; [done|].
  destruct (on_port HTTP_PORT perm); [|apply IH].
  destruct (http_ranges_loop _ _) eqn:Hr; [apply IH|].
  intros [= <-]. by eapply http_ranges_loop_Raise.
Qed.

Lemma http_ranges_loop_missing ranges cidrs ip_range :
  ip_range ∈ ranges → CidrIp ip_range = None →
  http_ranges_loop ranges cidrs = Raise (Exn KeyError "'CidrIp'").
Proof.
  revert cidrs. induction ranges as [|r ranges IH]; intros cidrs Hin Hnone;
    [by apply elem_of_nil in Hin|].
  simpl. destruct (CidrIp r) eqn:Hr; [|done].
  apply elem_of_cons in Hin as [->|Hin]; [congruence|]. by apply IH.
Qed.

(** A port-80 range without ['CidrIp'] makes the HTTP loop raise. *)
Lemma http_loop_missing perms cidrs perm ip_range :
  perm ∈ perms → on_port HTTP_PORT perm = true →
  ip_range ∈ ip_ranges perm → CidrIp ip_range = None →
  http_loop perms cidrs = Raise (Exn KeyError "'CidrIp'").
Proof.
  revert cidrs. induction perms as [|p perms IH]; intros cidrs Hin Hport Hr Hnone;
    [by apply elem_of_nil in Hin|].
  simpl. apply elem_of_cons in Hin as [->|Hin].
  - rewrite Hport. by rewrite (http_ranges_loop_missing _ _ _ Hr Hnone).
  - destruct (on_port HTTP_PORT p); [|by apply IH].
    destruct (http_ranges_loop _ _) eqn:Hp; [by apply IH|].
    f_equal. by eapply http_ranges_loop_Raise.
Qed.

(** X3.  When a port-80 permission of the read has a range without
    ['CidrIp'], the function exits with status 1 and makes no call for
    port 80; the SSH add, which comes before the HTTP loop, has already
    been made when SSH was found closed. *)
Theorem missing_cidr_is_fatal w h sg_id allowed_cidrs sg rest perm ip_range :
  describe_security_groups w (GroupIds [sg_id]) h = Ok (sg :: rest) →
  perm ∈ IpPermissions sg → on_port HTTP_PORT perm = true →
  ip_range ∈ ip_ranges perm → CidrIp ip_range = None →
  (update_security_group sg_id allowed_cidrs w h).1 = SysExit 1 ∧
  revoked_on HTTP_PORT (update_security_group sg_id allowed_cidrs w h).2 = ∅ ∧
  authorized_on HTTP_PORT (update_security_group sg_id allowed_cidrs w h).2 = ∅ ∧
  (ssh_loop (IpPermissions sg) false = false →
   EvAuthorize sg_id [ssh_permission] ∈ (update_security_group sg_id allowed_cidrs w h).2).
Proof.
  intros Hd Hin Hport Hr Hnone.
  pose proof (http_loop_missing _ ∅ _ _ Hin Hport Hr Hnone) as Hloop.
  unfold_run. rewrite Hd. simpl.
  destruct (ssh_loop (IpPermissions sg) false); simpl.
  - rewrite Hloop. simpl. by split_and!.
  - destruct (authorize_security_group_ingress w sg_id [ssh_permission] _); simpl;
      rewrite ?Hloop; simpl; rewrite ?cidrs_on_ssh_http;
      (split_and!; [done|done|set_solver|intros _; set_solver]).
Qed.

Lemma missing_cidr_is_fatal_example :
  let perm := {| IpProtocol := Some "tcp"; FromPort := Some 80; ToPort := Some 80;
                 IpRanges := Some [mkIpRange None] |} in
  let w := calm_world [mkSecurityGroup "sg-1" [perm]] sample_config in
  (update_security_group "sg-1" ["3.3.3.3/32"] w []).1 = SysExit 1 ∧
  EvAuthorize "sg-1" [ssh_permission] ∈ (update_security_group "sg-1" ["3.3.3.3/32"] w []).2.
Proof.
  intros perm w.
  destruct (missing_cidr_is_fatal w [] "sg-1" ["3.3.3.3/32"]
              (mkSecurityGroup "sg-1" [perm]) [] perm (mkIpRange None))
    as (Hexit & _ & _ & Hssh).
  - reflexivity.
  - apply list_elem_of_here.
  - reflexivity.
  - apply list_elem_of_here.
  - reflexivity.
  - split; [exact Hexit|]. apply Hssh. reflexivity.
Defined.

(** X4.  When the read answers with no group at all, the subscript [0]
    raises [IndexError]; it is caught, printed, and the function exits
    with status 1 after the read alone. *)
Theorem no_group_is_fatal w h sg_id allowed_cidrs :
  describe_security_groups w (GroupIds [sg_id]) h = Ok [] →
  update_security_group sg_id allowed_cidrs w h
  = (SysExit 1,
     [EvDescribe (GroupIds [sg_id]);
      EvPrint (MsgErrUpdating (Exn IndexError "list index out of range"))]).
Proof. intros Hd. unfold_run. by rewrite Hd. Qed.

Lemma no_group_is_fatal_example :
  (update_security_group "sg-1" ["3.3.3.3/32"] (calm_world [] sample_config) []).1
  = SysExit 1.
Proof.
  by rewrite (no_group_is_fatal (calm_world [] sample_config) [] "sg-1" ["3.3.3.3/32"] eq_refl).
Defined.

(** ** update_security_group: a run that returns *)

(** A run that returns made the read and all three steps. *)
Lemma update_security_group_returned w h sg_id allowed_cidrs b :
  (update_security_group sg_id allowed_cidrs w h).1 = Returned b →
  b = true ∧
  ∃ perms cur,
    read_permissions w h sg_id = Some perms ∧
    http_loop perms ∅ = Ok cur ∧
    (update_security_group sg_id allowed_cidrs w h).2
    = EvDescribe (GroupIds [sg_id]) ::
        ssh_step sg_id perms
        ++ revoke_step sg_id (cur ∖ list_to_set allowed_cidrs)
        ++ authorize_step sg_id (list_to_set allowed_cidrs ∖ cur).
Proof.
  revert b.
  change (wp (update_security_group sg_id allowed_cidrs) w h (λ o evs,
    ∀ b, o = Returned b →
      b = true ∧
      ∃ perms cur,
        read_permissions w h sg_id = Some perms ∧
        http_loop perms ∅ = Ok cur ∧
        evs = EvDescribe (GroupIds [sg_id]) ::
                ssh_step sg_id perms
                ++ revoke_step sg_id (cur ∖ list_to_set allowed_cidrs)
                ++ authorize_step sg_id (list_to_set allowed_cidrs ∖ cur))).
  unfold update_security_group. wp_run; intros b Hb; try discriminate.
  all: injection Hb as <-; split; [done|].
  all: match goal with
       | Hd : describe_security_groups _ _ _ = Ok (?sg :: _),
         Hl : http_loop _ _ = Ok ?cur |- _ =>
           exists (IpPermissions sg), cur; unfold read_permissions; rewrite Hd;
           split; [done|]; split; [exact Hl|]
       end.
  all: unfold ssh_step, revoke_step, authorize_step.
  all: repeat match goal with
         | H : negb _ = true |- _ => apply negb_true_iff in H; rewrite H
         | H : negb _ = false |- _ => apply negb_false_iff in H; rewrite H
         | H : bool_decide _ = _ |- _ => rewrite H; clear H
         end.
  all: reflexivity.
Qed.

Lemma cidrs_on_ssh : cidrs_on SSH_PORT [ssh_permission] = {[ALL_ADDRESSES]}.
Proof.
  unfold cidrs_on. rewrite (filter_cons_True _ ssh_permission []) by done.
  rewrite filter_nil. unfold permission_cidrs, ip_ranges. simpl. set_solver.
Qed.

(** X5.  Whenever [update_security_group] returns, in whatever world,
    its value is [True], the calls it made bring the port-80 addresses of
    the read to exactly the allowed ones, and 0.0.0.0/0 is among the
    port-22 addresses afterwards. *)
Theorem returning_run_has_converged w h sg_id allowed_cidrs b :
  (update_security_group sg_id allowed_cidrs w h).1 = Returned b →
  b = true ∧
  ∃ perms cur,
    read_permissions w h sg_id = Some perms ∧
    http_loop perms ∅ = Ok cur ∧
    after_run HTTP_PORT (update_security_group sg_id allowed_cidrs w h).2 cur
    = list_to_set allowed_cidrs ∧
    (∀ ssh_cidrs : gset string,
       (lists_cidr SSH_PORT ALL_ADDRESSES perms → ALL_ADDRESSES ∈ ssh_cidrs) →
       ALL_ADDRESSES
       ∈ after_run SSH_PORT (update_security_group sg_id allowed_cidrs w h).2 ssh_cidrs).
Proof.
  intros Hret.
  destruct (update_security_group_returned _ _ _ _ _ Hret)
    as (-> & perms & cur & Hread & Hloop & Hevs).
  split; [done|]. exists perms, cur. split_and!; [done..| |].
  - rewrite Hevs. unfold after_run. simpl.
    rewrite revoked_on_steps, authorized_on_steps, cidrs_on_http.
    apply set_eq. intros c.
    destruct (decide (c ∈ cur));
      destruct (decide (c ∈@{gset string} list_to_set allowed_cidrs));
      case_bool_decide; set_solver.
  - intros ssh_cidrs Hopen. unfold after_run. rewrite revoked_on_ssh_run.
    destruct (ssh_loop perms false) eqn:Hssh.
    + apply ssh_open_iff in Hssh. set_solver.
    + rewrite Hevs. simpl. rewrite authorized_on_app. unfold ssh_step. rewrite Hssh.
      simpl. rewrite cidrs_on_ssh. set_solver.
Qed.

Lemma returning_run_has_converged_example :
  let w := calm_world [mkSecurityGroup "sg-1" [tcp_permission 80 ["1.1.1.1/32"]]]
             sample_config in
  let r := update_security_group "sg-1" ["3.3.3.3/32"] w [] in
  r.1 = Returned true ∧
  ∃ cur, after_run HTTP_PORT r.2 cur = list_to_set ["3.3.3.3/32"].
Proof.
  intros w r.
  assert (Hret : r.1 = Returned true) by (vm_compute; reflexivity).
  destruct (returning_run_has_converged w [] "sg-1" ["3.3.3.3/32"] true Hret)
    as (_ & perms & cur & _ & _ & Hafter & _).
  split; [exact Hret|]. exists cur. exact Hafter.
Defined.

(** ** No exception escapes the functions that guard their body *)

(** X6.  [get_current_ip], [get_cloudflare_ips], [get_security_group_id]
    and [update_security_group] never let an exception out: each returns
    a value or exits with status 1, and [update_security_group] returns
    nothing but [True]. *)
Theorem guarded_functions_exit_with_1 w h sg_id allowed_cidrs :
  ((∃ ip, (get_current_ip w h).1 = Returned ip) ∨ (get_current_ip w h).1 = SysExit 1) ∧
  ((∃ ips, (get_cloudflare_ips w h).1 = Returned ips)
   ∨ (get_cloudflare_ips w h).1 = SysExit 1) ∧
  ((∃ sg, (get_security_group_id w h).1 = Returned sg)
   ∨ (get_security_group_id w h).1 = SysExit 1) ∧
  ((update_security_group sg_id allowed_cidrs w h).1 = Returned true
   ∨ (update_security_group sg_id allowed_cidrs w h).1 = SysExit 1).
Proof.
  split_and!.
  - change (wp get_current_ip w h (λ o _, (∃ ip, o = Returned ip) ∨ o = SysExit 1)).
    unfold get_current_ip. wp_run; eauto.
  - change (wp get_cloudflare_ips w h (λ o _, (∃ ips, o = Returned ips) ∨ o = SysExit 1)).
    unfold get_cloudflare_ips. wp_run; eauto.
  - change (wp get_security_group_id w h (λ o _, (∃ sg, o = Returned sg) ∨ o = SysExit 1)).
    unfold get_security_group_id. wp_run; eauto.
  - change (wp (update_security_group sg_id allowed_cidrs) w h
              (λ o _, o = Returned true ∨ o = SysExit 1)).
    unfold update_security_group. wp_run; eauto.
Qed.

(** ** get_security_group_id *)

Ltac unfold_lookup :=
  unfold get_security_group_id, try_except, bind, describe, call, print, ret, sys_exit.

(** X7.  [get_security_group_id] returns the id of the first group of
    the lookup by name when that lookup finds one, and otherwise the id
    of the first group of the lookup by the open SSH rule; it returns in
    no other case, and it never calls the sink. *)
Theorem group_lookup_returns w h sg :
  ((get_security_group_id w h).1 = Returned sg ↔
   (∃ g rest, describe_security_groups w NAME_FILTERS h = Ok (g :: rest) ∧ GroupId g = sg)
   ∨ (describe_security_groups w NAME_FILTERS h = Ok [] ∧
      ∃ g rest,
        describe_security_groups w SSH_FILTERS
          (h ++ [EvDescribe NAME_FILTERS; EvPrint MsgNoNamedGroup]) = Ok (g :: rest) ∧
        GroupId g = sg)) ∧
  Forall (λ ev, is_mutation ev = false) (get_security_group_id w h).2.
Proof.
  split.
  - unfold_lookup.
    destruct (describe_security_groups w NAME_FILTERS h) as [[|g rest]|e]; simpl.
    + rewrite <- app_assoc. simpl.
      destruct (describe_security_groups w SSH_FILTERS _) as [[|g rest]|e]; simpl.
      * naive_solver.
      * split; [intros [= <-]; right; eauto|]. naive_solver.
      * destruct (exn_cls e); simpl; naive_solver.
    + split; [intros [= <-]; left; eauto|]. naive_solver.
    + destruct (exn_cls e); simpl; naive_solver.
  - eapply Forall_impl; [apply get_security_group_id_events|].
    intros [] Hev; try done; destruct Hev.
Qed.

(** Whether an exception is one of the two credential errors that the
    first [except] clause names. *)
Definition is_credentials_error (e : exn) : bool :=
  match exn_cls e with
  | NoCredentialsError | PartialCredentialsError => true
  | _ => false
  end.

(** X8.  When the lookup by name raises, nothing else is tried: the
    function prints the two lines about AWS credentials if the exception
    is a credentials error and the error itself otherwise, then exits
    with status 1. *)
Theorem group_lookup_failure w h e :
  describe_security_groups w NAME_FILTERS h = Raise e →
  get_security_group_id w h
  = (SysExit 1,
     EvDescribe NAME_FILTERS ::
       (if is_credentials_error e
        then [EvPrint MsgNoCredentials; EvPrint MsgRunAwsConfigure]
        else [EvPrint (MsgErrFindingGroup e)])).
Proof.
  intros Hd. unfold_lookup. rewrite Hd. simpl.
  unfold is_credentials_error. by destruct (exn_cls e).
Qed.

Lemma group_lookup_failure_example :
  get_security_group_id unreadable_world []
  = (SysExit 1,
     [EvDescribe NAME_FILTERS;
      EvPrint (MsgErrFindingGroup (Exn ClientError "UnauthorizedOperation"))]).
Proof.
  exact (group_lookup_failure unreadable_world []
           (Exn ClientError "UnauthorizedOperation") eq_refl).
Defined.

(** ** git_commit_and_push *)

(** X9.  [git_commit_and_push] runs a git command after [git status]
    only when the status is not empty, and runs [git push] only after
    [git pull], [git add] and [git commit] have each succeeded; with an
    empty status it prints that there is nothing to commit and returns.
    It never exits the process. *)
Theorem git_commands_run_in_sequence w h :
  let h1 := h ++ [EvCheckOutput GIT_STATUS; EvPrint MsgCommitting] in
  (∀ args, EvCheckCall args ∈ (git_commit_and_push w h).2 →
     ∃ status, check_output w GIT_STATUS h = Ok status ∧ status ≠ "") ∧
  (EvCheckCall GIT_PUSH ∈ (git_commit_and_push w h).2 →
     check_call w GIT_PULL h1 = Ok tt ∧
     check_call w GIT_ADD (h1 ++ [EvCheckCall GIT_PULL]) = Ok tt ∧
     check_call w GIT_COMMIT (h1 ++ [EvCheckCall GIT_PULL; EvCheckCall GIT_ADD]) = Ok tt) ∧
  (check_output w GIT_STATUS h = Ok "" →
     git_commit_and_push w h
     = (Returned tt, [EvCheckOutput GIT_STATUS; EvPrint MsgNoChanges])) ∧
  (∀ code, (git_commit_and_push w h).1 ≠ SysExit code).
Proof.
  intros h1. subst h1. split_and!.
  - change (wp git_commit_and_push w h (λ _ evs, ∀ args, EvCheckCall args ∈ evs →
              ∃ status, check_output w GIT_STATUS h = Ok status ∧ status ≠ "")).
    unfold git_commit_and_push. wp_run; intros args Hin; event_cases Hin.
    all: match goal with
         | H : check_output _ _ _ = Ok ?st, Hb : bool_decide (?st = "") = false |- _ =>
             exists st; split; [exact H|]; by apply bool_decide_eq_false in Hb
         end.
  - change (wp git_commit_and_push w h (λ _ evs, EvCheckCall GIT_PUSH ∈ evs →
      check_call w GIT_PULL (h ++ [EvCheckOutput GIT_STATUS; EvPrint MsgCommitting]) = Ok tt ∧
      check_call w GIT_ADD
        ((h ++ [EvCheckOutput GIT_STATUS; EvPrint MsgCommitting]) ++ [EvCheckCall GIT_PULL])
      = Ok tt ∧
      check_call w GIT_COMMIT
        ((h ++ [EvCheckOutput GIT_STATUS; EvPrint MsgCommitting])
         ++ [EvCheckCall GIT_PULL; EvCheckCall GIT_ADD]) = Ok tt)).
    unfold git_commit_and_push. wp_run; intros Hin; event_cases Hin.
    all: try (exfalso; vm_compute in Hin; discriminate).
    all: rewrite <- ?app_assoc in *; simpl in *.
    all: repeat match goal with a : unit |- _ => destruct a end.
    all: by split_and!.
  - intros Hst. unfold git_commit_and_push, try_except, bind, call, print, ret.
    by rewrite Hst.
  - change (wp git_commit_and_push w h (λ o _, ∀ code, o ≠ SysExit code)).
    unfold git_commit_and_push. wp_run; done.
Qed.

(** ** The two endpoints: strip and splitlines *)

(** Every character of [s] satisfies [P]. *)
Fixpoint every (P : ascii → bool) (s : string) : bool :=
  match s with
  | EmptyString => true
  | String c s' => P c && every P s'
  end.

Definition not_linebreak (c : ascii) : bool := negb (is_linebreak c).

(** A token as the ranges endpoint lists them: not empty, no white
    space at either end, no line break inside. *)
Definition clean (x : string) : Prop :=
  x ≠ "" ∧ strip x = x ∧ every not_linebreak x = true.

Lemma every_app P s1 s2 : every P (s1 +:+ s2) = every P s1 && every P s2.
Proof. induction s1 as [|c s1 IH]; simpl; [done|]. by rewrite IH, andb_assoc. Qed.

Lemma lstrip_every P s : every P s = true → every P (lstrip s) = true.
Proof.
  induction s as [|c s IH]; simpl; [done|]. intros [? ?]%andb_true_iff.
  destruct (isspace c); [auto|]. simpl. by apply andb_true_iff.
Qed.

Lemma rstrip_every P s : every P s = true → every P (rstrip s) = true.
Proof.
  induction s as [|c s IH]; simpl; [done|]. intros [Hc Hs]%andb_true_iff.
  specialize (IH Hs). destruct (rstrip s) as [|c' r].
  - destruct (isspace c); simpl; [done|]. by rewrite Hc.
  - simpl in *. by rewrite Hc, IH.
Qed.

Lemma strip_every P s : every P s = true → every P (strip s) = true.
Proof. intros. by apply rstrip_every, lstrip_every. Qed.

Lemma lstrip_blank s : every isspace s = true → lstrip s = "".
Proof.
  induction s as [|c s IH]; simpl; [done|]. intros [-> ?]%andb_true_iff. auto.
Qed.

Lemma strip_blank s : every isspace s = true → strip s = "".
Proof. intros H. unfold strip. by rewrite lstrip_blank. Qed.

Lemma lstrip_head s :
  lstrip s = "" ∨ ∃ c t, lstrip s = String c t ∧ isspace c = false.
Proof.
  induction s as [|c s IH]; simpl; [by left|].
  destruct (isspace c) eqn:Hc; [done|]. right. by exists c, s.
Qed.

Lemma rstrip_head c t :
  isspace c = false → ∃ t', rstrip (String c t) = String c t'.
Proof. intros Hc. simpl. destruct (rstrip t); rewrite ?Hc; eauto. Qed.

Lemma rstrip_idemp s : rstrip (rstrip s) = rstrip s.
Proof.
  induction s as [|c s IH]; simpl; [done|].
  destruct (rstrip s) as [|c' r] eqn:Hr.
  - destruct (isspace c) eqn:Hc; simpl; [done|]. by rewrite Hc.
  - change (rstrip (String c (String c' r)) = String c (String c' r)).
    simpl in *. by rewrite IH.
Qed.

(** [strip] leaves nothing for a second [strip] to remove. *)
Lemma strip_idemp s : strip (strip s) = strip s.
Proof.
  unfold strip. destruct (lstrip_head s) as [->|(c & t & -> & Hc)]; [done|].
  destruct (rstrip_head c t Hc) as [t' Ht]. rewrite Ht.
  simpl lstrip. rewrite Hc. rewrite <- Ht. apply rstrip_idemp.
Qed.

(** The lines of [splitlines] have no line break inside. *)
Lemma splitlines_from_lines n : ∀ line s,
  (String.length s ≤ n)%nat →
  every not_linebreak line = true →
  Forall (λ x, every not_linebreak x = true) (splitlines_from line s).
Proof.
  induction n as [|n IH]; intros line s Hn Hline.
  - destruct s; [|simpl in Hn; lia]. simpl. case_decide; by repeat constructor.
  - destruct s as [|c s]; simpl.
    + case_decide; by repeat constructor.
    + simpl in Hn. destruct (is_linebreak c) eqn:Hc.
      * destruct s as [|c' s']; [by repeat constructor|].
        simpl in Hn. destruct (_ && _).
        -- constructor; [done|]. apply IH; [lia|done].
        -- constructor; [done|]. apply IH; [simpl; lia|done].
      * apply IH; [lia|]. rewrite every_app. simpl.
        unfold not_linebreak at 2. by rewrite Hline, Hc.
Qed.

Lemma elem_of_published_ranges x text :
  x ∈ published_ranges text ↔ ∃ line, line ∈ splitlines text ∧ strip line ≠ "" ∧ x = strip line.
Proof.
  unfold published_ranges. rewrite list_elem_of_fmap. split.
  - intros (line & -> & Hin). apply list_elem_of_filter in Hin as [? ?]. by exists line.
  - intros (line & Hin & Hne & ->). exists line. split; [done|].
    by apply list_elem_of_filter.
Qed.

Lemma append_empty_r (s : string) : s +:+ "" = s.
Proof. induction s as [|c s IH]; [done|]. change (String c (s +:+ "") = String c s). by f_equal. Qed.

Lemma append_snoc (s : string) c x : (s +:+ String c "") +:+ x = s +:+ String c x.
Proof.
  induction s as [|c' s IH]; [done|].
  change (String c' ((s +:+ String c "") +:+ x) = String c' (s +:+ String c x)).
  by f_equal.
Qed.

(** Text before the first line break joins the line being read. *)
Lemma splitlines_from_prefix x : ∀ line s,
  every not_linebreak x = true →
  splitlines_from line (x +:+ s) = splitlines_from (line +:+ x) s.
Proof.
  induction x as [|c x IH]; intros line s Hx; simpl.
  - by rewrite append_empty_r.
  - apply andb_true_iff in Hx as [Hc Hx]. unfold not_linebreak in Hc.
    apply negb_true_iff in Hc. rewrite Hc. rewrite (IH _ _ Hx).
    by rewrite append_snoc.
Qed.

(** A body of one token per line, each ended by a line feed. *)
Fixpoint lines_text (tokens : list string) : string :=
  match tokens with
  | [] => ""
  | x :: rest => x +:+ LF +:+ lines_text rest
  end.

Lemma splitlines_from_LF line t :
  splitlines_from line (String (ascii_of_nat 10) t) = line :: splitlines_from "" t.
Proof. by destruct t. Qed.

Lemma splitlines_lines_text tokens :
  Forall clean tokens → splitlines (lines_text tokens) = tokens.
Proof.
  unfold splitlines. induction 1 as [|x rest (Hne & _ & Hx) _ IH]; [done|].
  cbn [lines_text]. rewrite splitlines_from_prefix by done.
  change ("" +:+ x) with x. unfold LF.
  change (String (ascii_of_nat 10) "" +:+ lines_text rest)
    with (String (ascii_of_nat 10) (lines_text rest)).
  by rewrite splitlines_from_LF, IH.
Qed.

(** X10.  Every entry that [get_cloudflare_ips] makes of a response
    body is clean: not empty, stripped, on one line.  A body of clean
    tokens, one per line, gives back those tokens in order; a body of
    white space alone gives no entry. *)
Theorem published_ranges_are_clean (text : string) :
  Forall clean (published_ranges text) ∧
  (∀ tokens, Forall clean tokens → published_ranges (lines_text tokens) = tokens) ∧
  (every isspace text = true → published_ranges text = []).
Proof.
  split_and!.
  - apply Forall_forall. intros x (line & Hin & Hne & ->)%elem_of_published_ranges.
    split_and!; [done|apply strip_idemp|].
    apply strip_every.
    pose proof (splitlines_from_lines (String.length text) "" text (le_n _) eq_refl) as HF.
    rewrite Forall_forall in HF. by apply HF.
  - intros tokens Hclean. unfold published_ranges.
    rewrite splitlines_lines_text by done.
    induction Hclean as [|x rest (Hne & Hstrip & _) _ IH]; [done|].
    rewrite filter_cons_True by (by rewrite Hstrip). by rewrite fmap_cons, Hstrip, IH.
  - intros Hblank. unfold published_ranges.
    assert (Hall : ∀ n line s, (String.length s ≤ n)%nat →
              every isspace line = true → every isspace s = true →
              Forall (λ x, every isspace x = true) (splitlines_from line s)).
    { induction n as [|n IH]; intros line s Hn Hline Hs.
      - destruct s; [|simpl in Hn; lia]. simpl. case_decide; by repeat constructor.
      - destruct s as [|c s]; simpl.
        + case_decide; by repeat constructor.
        + simpl in Hn, Hs. apply andb_true_iff in Hs as [Hc Hs].
          destruct (is_linebreak c).
          * destruct s as [|c' s']; [by repeat constructor|].
            simpl in Hn. destruct (_ && _).
            -- constructor; [done|]. simpl in Hs. apply andb_true_iff in Hs as [_ Hs].
               apply IH; [lia|done..].
            -- constructor; [done|]. apply IH; [simpl; lia|done..].
          * apply IH; [lia| |done]. rewrite every_app. simpl. by rewrite Hline, Hc. }
    specialize (Hall (String.length text) "" text (le_n _) eq_refl Hblank).
    fold (splitlines text) in Hall.
    induction Hall as [|x rest Hx _ IH]; [done|].
    rewrite filter_cons_False; [done|]. intros Hne. apply Hne. by apply strip_blank.
Qed.

(** A world like [w] whose endpoints answer as [f] says. *)
Definition with_requests_get (w : World)
    (f : string → list event → result string) : World :=
  {| requests_get := f;
     boto3_session := boto3_session w;
     session_client := session_client w;
     describe_security_groups := describe_security_groups w;
     authorize_security_group_ingress := authorize_security_group_ingress w;
     revoke_security_group_ingress := revoke_security_group_ingress w;
     path_exists := path_exists w;
     yaml_safe_load := yaml_safe_load w;
     yaml_dump := yaml_dump w;
     check_output := check_output w;
     check_call := check_call w |}.

(** X11.  [get_current_ip] returns the body of the address endpoint,
    stripped (so that stripping it again changes nothing), followed by
    "/32"; it does not look at what is left, and a body of white space
    alone gives the string "/32". *)
Theorem current_ip_is_the_stripped_body w h text :
  requests_get w CHECKIP_URL h = Ok text →
  ∃ ip,
    get_current_ip w h = (Returned (ip +:+ "/32"), [EvGet CHECKIP_URL]) ∧
    ip = strip text ∧ strip ip = ip ∧
    (every isspace text = true → ip = "").
Proof.
  intros Hget. exists (strip text). split_and!.
  - unfold get_current_ip, try_except, bind, call, ret. by rewrite Hget.
  - done.
  - apply strip_idemp.
  - apply strip_blank.
Qed.

Lemma current_ip_is_the_stripped_body_example :
  let w := with_requests_get (calm_world [] sample_config) (λ _ _, Ok (" " +:+ LF)) in
  (get_current_ip w []).1 = Returned "/32".
Proof.
  intros w.
  destruct (current_ip_is_the_stripped_body w [] (" " +:+ LF) eq_refl)
    as (ip & Hrun & _ & _ & Hblank).
  rewrite Hrun. simpl. by rewrite (Hblank eq_refl).
Defined.

(** ** The desired list *)

(** X12.  The list of line 218 depends only on which addresses there
    are: the order of the ranges, repeated ranges and a home address that
    is also a range make no difference. *)
Theorem target_depends_on_the_set home_ip cf_ips home_ip' cf_ips' :
  (∀ c, c = home_ip ∨ c ∈ cf_ips ↔ c = home_ip' ∨ c ∈ cf_ips') →
  target_http_cidrs home_ip cf_ips = target_http_cidrs home_ip' cf_ips'.
Proof.
  intros Hsame. unfold target_http_cidrs. do 2 f_equal.
  apply set_eq. intros c. rewrite !elem_of_list_to_set, !elem_of_cons. apply Hsame.
Qed.

Lemma target_depends_on_the_set_example :
  target_http_cidrs "198.51.100.7/32" ["173.245.48.0/20"; "103.21.244.0/22"]
  = target_http_cidrs "198.51.100.7/32"
      ["103.21.244.0/22"; "198.51.100.7/32"; "173.245.48.0/20"; "103.21.244.0/22"].
Proof.
  apply target_depends_on_the_set. intros c.
  rewrite !elem_of_cons, !elem_of_nil. tauto.
Defined.

(** ** The YAML document *)

Lemma dict_set_keys_prefix key value d : d.*1 `prefix_of` (dict_set key value d).*1.
Proof.
  induction d as [|[k v] d IH]; simpl; [apply prefix_nil|].
  case_bool_decide; simpl; [by subst|]. by apply prefix_cons.
Qed.

Lemma new_rules_keys target rules : rules.*1 `prefix_of` (new_rules target rules).*1.
Proof.
  unfold new_rules. simpl. case_bool_decide.
  - apply dict_set_keys_prefix.
  - etrans; apply dict_set_keys_prefix.
Qed.

(** X13.  [update_rules] (lines 243-246) succeeds exactly when the
    document is a mapping whose [rules] is a mapping, written in place
    or shared.  It then changes that one mapping and nothing else.  In
    the mapping the keys keep their places, every rule other than [http]
    and [ssh] keeps its value, [http] is the new list, and [ssh] keeps
    its value when it has one and becomes [["0.0.0.0/0"]] when it has
    none.  When the mapping is shared (a YAML alias), it is changed in
    the table, so every reference to it shows the new rules, and the
    top-level value is as before.  When it is written in place, the
    keys of the document, their order and every other top-level value
    are kept, and no shared object changes except the document itself
    when it is one. *)
Theorem update_rules_keeps_the_rest config target :
  ((∃ config', update_rules config target = Ok config') ↔
   ∃ d inner rules,
     deref (anchors config) (root config) = YMap d ∧
     dict_get "rules" d = Some inner ∧
     deref (anchors config) inner = YMap rules) ∧
  (∀ config', update_rules config target = Ok config' →
   ∃ d inner rules d' inner' rules',
     (deref (anchors config) (root config) = YMap d ∧
      dict_get "rules" d = Some inner ∧
      deref (anchors config) inner = YMap rules) ∧
     (deref (anchors config') (root config') = YMap d' ∧
      dict_get "rules" d' = Some inner' ∧
      deref (anchors config') inner' = YMap rules') ∧
     (rules.*1 `prefix_of` rules'.*1 ∧
      (∀ key, key ≠ "http" → key ≠ "ssh" → dict_get key rules' = dict_get key rules) ∧
      dict_get "http" rules' = Some (YSeq (YStr <$> target)) ∧
      dict_get "ssh" rules'
      = Some (default (YSeq [YStr ALL_ADDRESSES]) (dict_get "ssh" rules))) ∧
     match inner with
     | YAlias a =>
         config' = mkDocument (<[a := OMap rules']> (anchors config)) (root config)
     | _ =>
         inner' = YMap rules' ∧
         d'.*1 = d.*1 ∧
         (∀ key, key ≠ "rules" → dict_get key d' = dict_get key d) ∧
         match root config with
         | YAlias b =>
             config' = mkDocument (<[b := OMap d']> (anchors config)) (root config)
         | _ => config' = mkDocument (anchors config) (YMap d')
         end
     end).
Proof.
  split.
  - split.
    + intros [config' (d & inner & rules & ? & ? & ? & _)%update_rules_Ok].
      by exists d, inner, rules.
    + intros (d & inner & rules & Hr & Hinner & Hrules).
      eexists. apply update_rules_Ok. by exists d, inner, rules.
  - intros config' (d & inner & rules & Hr & Hinner & Hrules & ->)%update_rules_Ok.
    pose proof (new_rules_keys target rules) as Hkeys.
    pose proof (new_rules_other target rules) as Hother.
    pose proof (new_rules_http target rules) as Hhttp.
    pose proof (new_rules_ssh target rules) as Hssh.
    assert (Hpresent : "rules" ∈ d.*1) by (apply dict_get_is_Some; by rewrite Hinner).
    destruct config as [table r]. unfold with_mapping, getitem. simpl in *.
    rewrite Hr, Hinner.
    destruct inner as [| | | | |rules0|a]; simplify_eq/=.
    + destruct r as [| | | | |d0|b]; simplify_eq/=.
      * exists d, (YMap rules), rules,
          (dict_set "rules" (YMap (new_rules target rules)) d),
          (YMap (new_rules target rules)), (new_rules target rules). simpl.
        split_and!; try done.
        -- apply dict_get_set_eq.
        -- by apply dict_set_keys_present.
        -- intros key Hkey. by apply dict_get_set_ne.
      * destruct (table !! b) as [[|d0]|] eqn:Hb; simplify_eq/=.
        exists d, (YMap rules), rules,
          (dict_set "rules" (YMap (new_rules target rules)) d),
          (YMap (new_rules target rules)), (new_rules target rules). simpl.
        rewrite lookup_insert_eq.
        split_and!; try done.
        -- apply dict_get_set_eq.
        -- by apply dict_set_keys_present.
        -- intros key Hkey. by apply dict_get_set_ne.
    + destruct (table !! a) as [[|rules0]|] eqn:Ha; simplify_eq/=.
      destruct r as [| | | | |d0|b]; simplify_eq/=.
      * exists d, (YAlias a), rules, d, (YAlias a), (new_rules target rules). simpl.
        rewrite Ha, lookup_insert_eq. by split_and!.
      * destruct (decide (a = b)) as [->|Hab].
        -- rewrite Ha in Hr. simplify_eq/=.
           exists d, (YAlias b), d, (new_rules target d), (YAlias b), (new_rules target d).
           simpl. rewrite Ha, !lookup_insert_eq.
           split_and!; try done. by rewrite Hother.
        -- destruct (table !! b) as [[|d0]|] eqn:Hb; simplify_eq/=.
           exists d, (YAlias a), rules, d, (YAlias a), (new_rules target rules). simpl.
           rewrite Ha, lookup_insert_eq, lookup_insert_ne, Hb by done.
           by split_and!.
Qed.

(** The file
<<
defaults: &d
  http: []
rules: *d
>>
    in which [config['defaults']] and [config['rules']] are one mapping. *)
Definition aliased_config : document :=
  mkDocument {["d" := OMap [("http", YSeq [])]]}
             (YMap [("defaults", YAlias "d"); ("rules", YAlias "d")]).

Lemma update_rules_keeps_the_rest_example :
  let rules' := [("http", YSeq [YStr "198.51.100.7/32"]);
                 ("ssh", YSeq [YStr ALL_ADDRESSES])] in
  let config' := mkDocument {["d" := OMap rules']} (root aliased_config) in
  update_rules aliased_config ["198.51.100.7/32"] = Ok config' ∧
  deref (anchors config') (YAlias "d") = YMap rules' ∧
  getitem (anchors config') (root config') "defaults"
  = getitem (anchors config') (root config') "rules".
Proof.
  intros rules' config'.
  assert (Hupdate : update_rules aliased_config ["198.51.100.7/32"] = Ok config')
    by (vm_compute; reflexivity).
  destruct (update_rules_keeps_the_rest aliased_config ["198.51.100.7/32"])
    as [_ Hkept].
  destruct (Hkept config' Hupdate)
    as (d & inner & rules & d1 & inner1 & rules1 & (Hr & Hinner & Hrules) & _ & _ & Hone).
  split_and!; [exact Hupdate|vm_compute; reflexivity|vm_compute; reflexivity].
Defined.

(** X14.  Running [update_rules] on its own result with the same list
    changes nothing: a second run rewrites the YAML file as it is. *)
Theorem update_rules_idempotent config target config' :
  update_rules config target = Ok config' →
  update_rules config' target = Ok config'.
Proof.
  intros (d & inner & rules & Hr & Hinner & Hrules & ->)%update_rules_Ok.
  destruct (with_rules_again config target d inner rules)
    as [(d' & inner' & Hr' & Hinner' & Hrules') Hagain]; [done..|].
  apply update_rules_Ok. exists d', inner', (new_rules target rules).
  split_and!; [done..|]. by rewrite Hagain, new_rules_idempotent.
Qed.

Lemma update_rules_idempotent_example :
  ∃ config',
    update_rules sample_config ["198.51.100.7/32"] = Ok config' ∧
    update_rules config' ["198.51.100.7/32"] = Ok config'.
Proof.
  eexists. split; [reflexivity|].
  apply (update_rules_idempotent sample_config). reflexivity.
Defined.

(** ** Runs of main: how they end *)

Lemma get_security_group_id_outcome w h :
  (∃ sg, (get_security_group_id w h).1 = Returned sg)
  ∨ (get_security_group_id w h).1 = SysExit 1.
Proof.
  change (wp get_security_group_id w h (λ o _, (∃ sg, o = Returned sg) ∨ o = SysExit 1)).
  unfold get_security_group_id. wp_run; eauto.
Qed.

Lemma update_security_group_outcome sg_id allowed_cidrs w h :
  (update_security_group sg_id allowed_cidrs w h).1 = Returned true
  ∨ (update_security_group sg_id allowed_cidrs w h).1 = SysExit 1.
Proof.
  change (wp (update_security_group sg_id allowed_cidrs) w h
            (λ o _, o = Returned true ∨ o = SysExit 1)).
  unfold update_security_group. wp_run; eauto.
Qed.

Lemma git_commit_and_push_outcome w h code :
  (git_commit_and_push w h).1 ≠ SysExit code.
Proof.
  revert code. change (wp git_commit_and_push w h (λ o _, ∀ code, o ≠ SysExit code)).
  unfold git_commit_and_push. wp_run; done.
Qed.

(** A run of [main] with the three larger functions taken as a whole:
    their events and the ways they can end. *)
Ltac wp_script_head :=
  lazymatch goal with
  | |- wp get_current_ip _ _ _ => unfold get_current_ip
  | |- wp get_cloudflare_ips _ _ _ => unfold get_cloudflare_ips
  | |- wp load_yaml_config _ _ _ => unfold load_yaml_config
  | |- wp get_security_group_id ?w ?h _ =>
      apply (wp_mono _ _ _ (λ o e, Forall lookup_event e
                                   ∧ ((∃ sg, o = Returned sg) ∨ o = SysExit 1)));
      [split; [exact (get_security_group_id_events w h)
              | exact (get_security_group_id_outcome w h)]
      | intros [?|?|?] ? (? & [[? ?]|?]); simplify_eq]
  | |- wp (update_security_group ?sg ?cidrs) ?w ?h _ =>
      apply (wp_mono _ _ _ (λ o e, Forall update_event e
                                   ∧ (o = Returned true ∨ o = SysExit 1)));
      [split; [exact (update_security_group_events sg cidrs w h)
              | exact (update_security_group_outcome sg cidrs w h)]
      | intros [?|?|?] ? (? & [?|?]); simplify_eq]
  | |- wp git_commit_and_push ?w ?h _ =>
      apply (wp_mono _ _ _ (λ o e, Forall git_event e ∧ (∀ code, o ≠ SysExit code)));
      [split; [apply git_commit_and_push_events
              | intros code; apply git_commit_and_push_outcome]
      | intros [?|?|?] ? (? & ?)]
  | _ => wp_head
  end; cbv beta iota.

Ltac wp_script := repeat wp_script_head.

Ltac suffix_of_events :=
  simpl; repeat first [reflexivity | apply suffix_cons_r | apply suffix_app_r].

(** X15.  The exit status of [main] tells whether the run succeeded: a
    run that returns has synced the group, written the YAML file and
    printed the closing lines; any other run ends with status 1 and does
    not print "Sync completed successfully!". *)
Theorem exit_status_tells_success w :
  ((main w []).1 = Returned tt →
     EvPrint MsgSynced ∈ (main w []).2 ∧
     (∃ config, EvDump YAML_FILE config ∈ (main w []).2) ∧
     SUCCESS_LINES `suffix_of` (main w []).2) ∧
  ((main w []).1 ≠ Returned tt →
     exit_status (main w []).1 = 1 ∧ EvPrint MsgCompleted ∉ (main w []).2).
Proof.
  change (wp main w [] (λ o evs,
    (o = Returned tt →
       EvPrint MsgSynced ∈ evs ∧ (∃ config, EvDump YAML_FILE config ∈ evs) ∧
       SUCCESS_LINES `suffix_of` evs) ∧
    (o ≠ Returned tt → exit_status o = 1 ∧ EvPrint MsgCompleted ∉ evs))).
  unfold main. wp_script; (split; [intros Hret; try discriminate | intros Hnot]).
  all: try (exfalso;
            match goal with
            | H : ∀ code, SysExit ?c ≠ SysExit code |- _ => exact (H c eq_refl)
            end).
  all: try (split; [reflexivity | intros Hin; absent_event Hin]).
  all: try (split_and!; [present_event | eexists; present_event
                         | unfold SUCCESS_LINES; suffix_of_events]).
  all: try (exfalso; apply Hnot; f_equal; match goal with u : unit |- _ => by destruct u end).
Qed.

(** X16.  [main] runs a git command only in a run that has written the
    YAML file and printed that it is updated. *)
Theorem git_runs_only_after_the_write w args :
  EvCheckOutput args ∈ (main w []).2 ∨ EvCheckCall args ∈ (main w []).2 →
  EvPrint MsgUpdatedYaml ∈ (main w []).2 ∧
  ∃ config, EvDump YAML_FILE config ∈ (main w []).2.
Proof.
  change (wp main w [] (λ _ evs,
    EvCheckOutput args ∈ evs ∨ EvCheckCall args ∈ evs →
    EvPrint MsgUpdatedYaml ∈ evs ∧ ∃ config, EvDump YAML_FILE config ∈ evs)).
  unfold main. wp_script; intros [Hin|Hin]; event_cases Hin.
  all: split; [present_event | eexists; present_event].
Qed.

Lemma git_runs_only_after_the_write_example :
  let evs := (main rejected_push_world []).2 in
  EvCheckCall GIT_PUSH ∈ evs ∧ EvPrint MsgUpdatedYaml ∈ evs.
Proof.
  intros evs.
  assert (Hpush : EvCheckCall GIT_PUSH ∈ evs) by compute_elem_of.
  destruct (git_runs_only_after_the_write rejected_push_world GIT_PUSH (or_intror Hpush))
    as [Hupdated _].
  by split.
Defined.

(** X17.  The YAML file is looked at only after the group is synced,
    and a run that finds it missing, or finds it without a [rules]
    mapping (an empty file is read as [{}]), ends there: with status 1
    and the "not found" line in the first case, with an uncaught
    [KeyError] in the second; the file is not written and no git command
    is run. *)
Theorem config_failures_come_after_sync w :
  ((∀ h, path_exists w YAML_FILE h = false) →
   EvExists YAML_FILE ∈ (main w []).2 →
   (main w []).1 = SysExit 1 ∧
   [EvPrint MsgSynced; EvExists YAML_FILE; EvPrint MsgYamlNotFound]
     `suffix_of` (main w []).2) ∧
  (∀ loaded,
     (∀ h, yaml_safe_load w YAML_FILE h = Ok loaded) → truthy loaded = false →
     EvLoad YAML_FILE ∈ (main w []).2 →
     (main w []).1 = Raised (Exn KeyError "'rules'") ∧
     exit_status (main w []).1 = 1 ∧
     [EvPrint MsgSynced; EvExists YAML_FILE; EvLoad YAML_FILE]
       `suffix_of` (main w []).2).
Proof.
  split.
  - intros Hmissing.
    change (wp main w [] (λ o evs,
      EvExists YAML_FILE ∈ evs →
      o = SysExit 1 ∧
      [EvPrint MsgSynced; EvExists YAML_FILE; EvPrint MsgYamlNotFound] `suffix_of` evs)).
    unfold main. wp_script; intros Hin; try (absent_event Hin; fail).
    all: match goal with
         | H : Ok (path_exists _ _ _) = Ok ?b |- _ =>
             rewrite Hmissing in H; injection H as <-
         end; try discriminate.
    all: split; [done|suffix_of_events].
  - intros loaded Hload Hfalse.
    change (wp main w [] (λ o evs,
      EvLoad YAML_FILE ∈ evs →
      o = Raised (Exn KeyError "'rules'") ∧ exit_status o = 1 ∧
      [EvPrint MsgSynced; EvExists YAML_FILE; EvLoad YAML_FILE] `suffix_of` evs)).
    unfold main. wp_script; intros Hin; try (absent_event Hin; fail).
    all: match goal with
         | H : yaml_safe_load _ _ _ = _ |- _ => rewrite Hload in H; simplify_eq
         end.
    all: match goal with
         | H : update_rules _ _ = _ |- _ =>
             rewrite Hfalse in H; unfold update_rules, setitem_in, getitem in H;
             simpl in H; simplify_eq
         end.
    all: split_and!; [done|done|suffix_of_events].
Qed.

(** A world in which the YAML file does not exist. *)
Definition no_yaml_world : World :=
  {| requests_get := requests_get (calm_world [] sample_config);
     boto3_session := λ _ _, Ok (Some "eu-west-1");
     session_client := λ _ _, Ok tt;
     describe_security_groups := λ _ _, Ok [mkSecurityGroup "sg-1" []];
     authorize_security_group_ingress := λ _ _ _, Ok tt;
     revoke_security_group_ingress := λ _ _ _, Ok tt;
     path_exists := λ _ _, false;
     yaml_safe_load := λ _ _, Ok (plain YNull);
     yaml_dump := λ _ _ _, Ok tt;
     check_output := λ _ _, Ok "";
     check_call := λ _ _, Ok tt |}.

Lemma config_failures_come_after_sync_example :
  (main no_yaml_world []).1 = SysExit 1 ∧
  (main (calm_world [mkSecurityGroup "sg-1" []] (plain YNull)) []).1
  = Raised (Exn KeyError "'rules'").
Proof.
  split.
  - destruct (config_failures_come_after_sync no_yaml_world) as [Hmissing _].
    apply Hmissing; [done|compute_elem_of].
  - destruct (config_failures_come_after_sync
                (calm_world [mkSecurityGroup "sg-1" []] (plain YNull))) as [_ Hempty].
    apply (Hempty (plain YNull)); [done|done|compute_elem_of].
Defined.

Ltac endpoints_answered :=
  match goal with
  | H1 : requests_get _ CHECKIP_URL ?h1 = Ok ?text,
    H2 : requests_get _ CLOUDFLARE_IPV4_URL ?h2 = Ok ?ranges |- _ =>
      exists text, ranges, h1, h2; split; [exact H1|exact H2]
  end.

(** X18.  [main] touches AWS, the YAML file or git only after both
    endpoints have answered: a failing endpoint ends the run before any
    of them. *)
Theorem endpoints_come_first w ev p :
  ev ∈ (main w []).2 → stage ev = Some p → (3 ≤ p)%nat →
  ∃ text ranges h1 h2,
    requests_get w CHECKIP_URL h1 = Ok text ∧
    requests_get w CLOUDFLARE_IPV4_URL h2 = Ok ranges.
Proof.
  intros Hin Hstage Hp. revert Hin.
  change (wp main w [] (λ _ evs, ev ∈ evs →
    ∃ text ranges h1 h2,
      requests_get w CHECKIP_URL h1 = Ok text ∧
      requests_get w CLOUDFLARE_IPV4_URL h2 = Ok ranges)).
  unfold main. wp_script; intros Hin; event_cases Hin.
  all: first [ endpoints_answered
             | exfalso; subst ev; vm_compute in Hstage; simplify_eq; lia ].
Qed.

Lemma endpoints_come_first_example :
  ∃ text ranges h1 h2,
    requests_get rejected_push_world CHECKIP_URL h1 = Ok text ∧
    requests_get rejected_push_world CLOUDFLARE_IPV4_URL h2 = Ok ranges.
Proof.
  apply (endpoints_come_first rejected_push_world (EvClient "ec2") 5%nat).
  - compute_elem_of.
  - reflexivity.
  - lia.
Defined.

(** X19.  The region that [main] reports is never empty: it is the
    region of the default session when that has one, and otherwise
    "eu-west-1", in which case a second session is made for that region. *)
Theorem region_falls_back w region :
  EvPrint (MsgRegion region) ∈ (main w []).2 →
  region ≠ "" ∧
  ∃ h configured,
    boto3_session w None h = Ok configured ∧
    (if no_region configured
     then region = "eu-west-1" ∧ EvSession (Some "eu-west-1") ∈ (main w []).2
     else configured = Some region ∧ ∀ r, EvSession (Some r) ∉ (main w []).2).
Proof.
  change (wp main w [] (λ _ evs,
    EvPrint (MsgRegion region) ∈ evs →
    region ≠ "" ∧
    ∃ h configured,
      boto3_session w None h = Ok configured ∧
      (if no_region configured
       then region = "eu-west-1" ∧ EvSession (Some "eu-west-1") ∈ evs
       else configured = Some region ∧ ∀ r, EvSession (Some r) ∉ evs))).
  unfold main. wp_script; intros Hin; event_cases Hin.
  all: simplify_eq.
  all: match goal with
       | H : boto3_session _ None ?h = Ok ?c, Hn : no_region ?c = ?b |- _ =>
           split; [|exists h, c; split; [exact H|]; rewrite Hn]
       end.
  all: try done.
  all: try (split; [done|present_event]).
  all: try match goal with
           | Hn : no_region ?c = false |- _ =>
               destruct c as [r0|]; [|done]; simpl in Hn;
               apply bool_decide_eq_false in Hn
           end.
  all: try done.
  all: split; [done|]; intros r Hr; absent_event Hr.
Qed.

Lemma region_falls_back_example :
  "eu-west-1" ≠ "" ∧ EvPrint (MsgRegion "eu-west-1") ∈ (main rejected_push_world []).2.
Proof.
  assert (Hin : EvPrint (MsgRegion "eu-west-1") ∈ (main rejected_push_world []).2)
    by compute_elem_of.
  destruct (region_falls_back rejected_push_world "eu-west-1" Hin) as [Hne _].
  by split.
Defined.

(** ** Runs of main: what reaches the sink *)

Lemma mutations_app evs1 evs2 : mutations (evs1 ++ evs2) = mutations evs1 ++ mutations evs2.
Proof. apply filter_app. Qed.

Lemma mutations_none (P : event → Prop) evs :
  Forall P evs → (∀ ev, P ev → is_mutation ev = false) → mutations evs = [].
Proof.
  intros HF Hno. unfold mutations. induction HF as [|ev evs Hev _ IH]; [done|].
  rewrite filter_cons_False; [done|]. rewrite (Hno _ Hev). by intros ?.
Qed.

Lemma lookup_event_no_mutation ev : lookup_event ev → is_mutation ev = false.
Proof. by destruct ev. Qed.

Lemma git_event_no_mutation ev : git_event ev → is_mutation ev = false.
Proof. by destruct ev. Qed.

(** The calls of [main] on the sink are those of its one call of
    [update_security_group]. *)
Lemma main_mutations w :
  mutations (main w []).2 = [] ∨
  ∃ sg_id allowed_cidrs h,
    mutations (main w []).2 = mutations (update_security_group sg_id allowed_cidrs w h).2.
Proof.
  change (wp main w [] (λ _ evs,
    mutations evs = [] ∨
    ∃ sg_id allowed_cidrs h,
      mutations evs = mutations (update_security_group sg_id allowed_cidrs w h).2)).
  unfold main. wp_main.
  all: rewrite ?mutations_app.
  all: repeat match goal with
         | H : Forall lookup_event ?e |- _ =>
             rewrite (mutations_none _ e H lookup_event_no_mutation); clear H
         | H : Forall git_event ?e |- _ =>
             rewrite (mutations_none _ e H git_event_no_mutation); clear H
         end.
  all: try (left; reflexivity).
  all: right;
       match goal with
       | Hu : (update_security_group ?sg ?cidrs _ ?h).2 = _ |- _ =>
           exists sg, cidrs, h; rewrite Hu
       end.
  all: simpl; by rewrite ?app_nil_r.
Qed.

(** X20.  A whole run of [main] calls the sink at most three times,
    revokes nothing on port 22, and names protocol tcp in every
    permission it passes. *)
Theorem main_is_as_careful_as_the_update w :
  (length (mutations (main w []).2) ≤ 3)%nat ∧
  revoked_on SSH_PORT (main w []).2 = ∅ ∧
  (∀ ev perm, ev ∈ mutations (main w []).2 → perm ∈ event_permissions ev →
     IpProtocol perm = Some "tcp").
Proof.
  rewrite <- revoked_on_mutations.
  destruct (main_mutations w) as [->|(sg_id & allowed_cidrs & h & ->)].
  { split_and!; [simpl; lia|done|by intros ? ? ?%elem_of_nil]. }
  pose proof (update_security_group_mutations w h sg_id allowed_cidrs) as Hpre.
  destruct (planned_mutations w h sg_id allowed_cidrs)
    as (add & rev & aut & to_revoke & to_authorize & Hplan & _).
  rewrite Hplan in Hpre. split_and!.
  - apply prefix_length in Hpre. etransitivity; [exact Hpre|].
    destruct add, rev, aut; simpl; lia.
  - rewrite revoked_on_mutations. apply revoked_on_ssh_run.
  - intros ev perm Hev Hperm.
    assert (HF : Forall (λ ev, ∀ perm, perm ∈ event_permissions ev →
                               IpProtocol perm = Some "tcp")
                   (mutations (update_security_group sg_id allowed_cidrs w h).2)).
    { apply (prefix_Forall _ _ _ Hpre).
      destruct add, rev, aut; simpl; Forall_split;
        intros p Hp; apply list_elem_of_singleton in Hp as ->; done. }
    rewrite Forall_forall in HF. by apply (HF ev).
Qed.
